(** * TAMPA canonicalization, consensus and strict validation

    A shallow embedding of
    - [src/src/datanet/canonicalize_v1.py] (canonicalize_value, canonicalize_json,
      compute_canonical_hash),
    - [src/src/datanet/compare_tampa.py] (ComparisonResult._compare),
    - [src/src/datanet/validate_tampa.py] (sha256_hex, validate_tampa_output),
    - [src/src/datanet/schema_tampa.py] (the Pydantic models and their field
      constraints),
    together with the parts of the Python runtime these functions rely on:
    [str.encode('utf-8')], [hashlib.sha256], [round(x, 3)] on binary64 floats,
    [float.__repr__] and [json.dumps]. *)

From Stdlib Require Import String Ascii ZArith List Bool Lia.
From Stdlib Require Import Floats Sorting.Permutation Sorting.Sorted.
Import ListNotations.
Open Scope Z_scope.
Open Scope list_scope.
Set Warnings "-inexact-float,-register-all".

(** ** Python strings

    A Python [str] is a sequence of Unicode code points; slicing and [len]
    count code points. *)

Definition pystr := list Z.

(** String literals of the examples are ASCII; each character is its code
    point. *)
Definition lit (s : string) : pystr :=
  map (fun c => Z.of_nat (nat_of_ascii c)) (list_ascii_of_string s).

(** JSON text in examples: a single quote stands for a double quote. *)
Definition jlit (s : string) : pystr :=
  map (fun c => if c =? 39 then 34 else c) (lit s).

(** Python exceptions that the modelled code can raise or catch. *)
Inductive exn :=
| ValueError (msg : pystr)
| TypeError (msg : pystr)
| UnicodeEncodeError.

Inductive exc (A : Type) :=
| Ok (a : A)
| Raise (e : exn).
Arguments Ok {A} a.
Arguments Raise {A} e.

Definition bind {A B} (m : exc A) (k : A -> exc B) : exc B :=
  match m with Ok a => k a | Raise e => Raise e end.

Notation "x <- m ;; k" := (bind m (fun x => k))
  (at level 61, m at next level, right associativity).

(** ** [str.encode('utf-8')]

    Surrogate code points (U+D800..U+DFFF) cannot be encoded: CPython raises
    [UnicodeEncodeError]. *)

Definition utf8_char (c : Z) : exc (list Z) :=
  if c <? 0x80 then Ok [c]
  else if c <? 0x800 then
    Ok [0xC0 + Z.shiftr c 6; 0x80 + Z.land c 0x3F]
  else if (0xD800 <=? c) && (c <=? 0xDFFF) then Raise UnicodeEncodeError
  else if c <? 0x10000 then
    Ok [0xE0 + Z.shiftr c 12; 0x80 + Z.land (Z.shiftr c 6) 0x3F;
        0x80 + Z.land c 0x3F]
  else
    Ok [0xF0 + Z.shiftr c 18; 0x80 + Z.land (Z.shiftr c 12) 0x3F;
        0x80 + Z.land (Z.shiftr c 6) 0x3F; 0x80 + Z.land c 0x3F].

Fixpoint utf8_encode (s : pystr) : exc (list Z) :=
  match s with
  | [] => Ok []
  | c :: s' => b <- utf8_char c ;; bs <- utf8_encode s' ;; Ok (b ++ bs)
  end.

(** ** [hashlib.sha256] (FIPS 180-4) over a byte list *)

Module SHA256.

Definition mask32 (x : Z) : Z := Z.land x 0xFFFFFFFF.
Definition add32 (x y : Z) : Z := mask32 (x + y).
Definition rotr (x : Z) (n : Z) : Z :=
  mask32 (Z.lor (Z.shiftr x n) (Z.shiftl x (32 - n))).
Definition ch (x y z : Z) : Z :=
  Z.lxor (Z.land x y) (Z.land (Z.lxor x 0xFFFFFFFF) z).
Definition maj (x y z : Z) : Z :=
  Z.lxor (Z.lxor (Z.land x y) (Z.land x z)) (Z.land y z).
Definition bsig0 (x : Z) : Z := Z.lxor (Z.lxor (rotr x 2) (rotr x 13)) (rotr x 22).
Definition bsig1 (x : Z) : Z := Z.lxor (Z.lxor (rotr x 6) (rotr x 11)) (rotr x 25).
Definition ssig0 (x : Z) : Z := Z.lxor (Z.lxor (rotr x 7) (rotr x 18)) (Z.shiftr x 3).
Definition ssig1 (x : Z) : Z := Z.lxor (Z.lxor (rotr x 17) (rotr x 19)) (Z.shiftr x 10).

(** The primes up to 400, by trial division. *)
Definition is_prime (n : Z) : bool :=
  (2 <=? n) && forallb (fun d => negb (n mod d =? 0))
                       (map Z.of_nat (seq 2 (Z.to_nat (Z.sqrt n) - 1))).

Definition first_primes (k : nat) : list Z :=
  firstn k (filter is_prime (map Z.of_nat (seq 2 400))).

(** The integer cube root [floor (n^(1/3))] by bisection. *)
Fixpoint icbrt_aux (n : Z) (fuel : nat) (lo hi : Z) : Z :=
  match fuel with
  | O => lo
  | S f =>
      if hi - lo <=? 1 then lo
      else let m := (lo + hi) / 2 in
           if m * m * m <=? n then icbrt_aux n f m hi else icbrt_aux n f lo m
  end.

Definition icbrt (n : Z) : Z := icbrt_aux n 256 0 (n + 1).

(** FIPS 180-4, 4.2.2: the first 32 bits of the fractional parts of the cube
    roots of the first 64 primes. *)
Definition K : list Z :=
  Eval vm_compute in map (fun p => icbrt (p * 2 ^ 96) mod 2 ^ 32) (first_primes 64).

(** FIPS 180-4, 5.3.3: the first 32 bits of the fractional parts of the
    square roots of the first 8 primes. *)
Definition H0 : list Z :=
  Eval vm_compute in map (fun p => Z.sqrt (p * 2 ^ 64) mod 2 ^ 32) (first_primes 8).

(** Padding: 0x80, zeros up to 56 mod 64, then the bit length on 8 bytes. *)
Fixpoint be_bytes (n : nat) (x : Z) : list Z :=
  match n with
  | O => []
  | S n' => be_bytes n' (Z.shiftr x 8) ++ [Z.land x 0xFF]
  end.

Definition pad (msg : list Z) : list Z :=
  let l := Z.of_nat (length msg) in
  let zeros := Z.to_nat ((55 - l) mod 64) in
  msg ++ [0x80] ++ repeat 0 zeros ++ be_bytes 8 (8 * l).

Fixpoint words (bs : list Z) : list Z :=
  match bs with
  | b0 :: b1 :: b2 :: b3 :: rest =>
      (Z.lor (Z.shiftl b0 24) (Z.lor (Z.shiftl b1 16) (Z.lor (Z.shiftl b2 8) b3)))
        :: words rest
  | _ => []
  end.

(** Message schedule W[0..63], built from the 16 block words. *)
Fixpoint schedule_rev (n : nat) (acc : list Z) : list Z :=
  match n with
  | O => acc
  | S n' =>
      let w := add32 (add32 (ssig1 (nth 1 acc 0)) (nth 6 acc 0))
                     (add32 (ssig0 (nth 14 acc 0)) (nth 15 acc 0)) in
      schedule_rev n' (w :: acc)
  end.

Definition schedule (block : list Z) : list Z :=
  rev (schedule_rev 48 (rev (words block))).

Definition round (st : list Z) (kw : Z * Z) : list Z :=
  match st with
  | [a; b; c; d; e; f; g; h] =>
      let t1 := add32 (add32 (add32 h (bsig1 e)) (add32 (ch e f g) (fst kw))) (snd kw) in
      let t2 := add32 (bsig0 a) (maj a b c) in
      [add32 t1 t2; a; b; c; add32 d t1; e; f; g]
  | _ => st
  end.

Definition compress (hs : list Z) (block : list Z) : list Z :=
  let st := fold_left round (combine K (schedule block)) hs in
  map (fun p => add32 (fst p) (snd p)) (combine hs st).

Fixpoint blocks (fuel : nat) (bs : list Z) : list (list Z) :=
  match fuel with
  | O => []
  | S f => match bs with
           | [] => []
           | _ => firstn 64 bs :: blocks f (skipn 64 bs)
           end
  end.

Definition digest (msg : list Z) : list Z :=
  let p := pad msg in
  let hs := fold_left compress (blocks (length p) p) H0 in
  flat_map (be_bytes 4) hs.

End SHA256.

(** [bytes.hexdigest()]: two lowercase hex digits per byte. *)
Definition hex_digit (d : Z) : Z := if d <? 10 then 48 + d else 87 + d.

Definition hexdigest (bs : list Z) : pystr :=
  flat_map (fun b => [hex_digit (Z.shiftr b 4); hex_digit (Z.land b 15)]) bs.

(** [sha256_hex] of validate_tampa.py:
    [hashlib.sha256(text.encode('utf-8')).hexdigest()]. *)
Definition sha256_hex (text : pystr) : exc pystr :=
  bs <- utf8_encode text ;; Ok (hexdigest (SHA256.digest bs)).

(** ** Binary64 floats: [round(x, n)] and [float.__repr__]

    Python floats are IEEE binary64, modelled by Rocq's primitive [float];
    [Prim2SF] exposes a finite float as [(-1)^s * m * 2^e] with [m < 2^53]. *)

(** Division of [a >= 0] by [b > 0], rounded half to even. *)
Definition div_rne (a b : Z) : Z :=
  let q := a / b in
  match Z.compare (2 * (a mod b)) b with
  | Lt => q
  | Gt => q + 1
  | Eq => if Z.even q then q else q + 1
  end.

(** The binary64 value nearest to [(-1)^neg * p / q] ([p >= 0], [q > 0]),
    ties to even, overflowing to infinity: what [_Py_dg_strtod] returns for
    an exact decimal. *)
Definition nearest_float (neg : bool) (p q : Z) : float :=
  let signed_zero := if neg then neg_zero else zero in
  if p =? 0 then signed_zero else
  let e0 := Z.log2 p - Z.log2 q - 52 in
  let big_enough (e : Z) :=
    if 0 <=? e then q * 2 ^ (e + 52) <=? p else q * 2 ^ 52 <=? p * 2 ^ (- e) in
  let e1 := if big_enough e0 then e0 else e0 - 1 in
  let e2 := Z.max e1 (-1074) in
  let m := if 0 <=? e2 then div_rne p (q * 2 ^ e2) else div_rne (p * 2 ^ (- e2)) q in
  let '(m', e3) := if m =? 2 ^ 53 then (2 ^ 52, e2 + 1) else (m, e2) in
  if 971 <? e3 then (if neg then neg_infinity else infinity)
  else match m' with
       | Zpos mp => SF2Prim (S754_finite neg mp e3)
       | _ => signed_zero
       end.

(** [round(x, ndigits)] for [ndigits >= 0] (CPython [double_round]): the exact
    value of [x] is rounded half to even to [ndigits] decimals, and that
    decimal is read back to the nearest float. NaN, infinities and zeros round
    to themselves; a finite float with [e >= 0] is an integer. *)
Definition py_round (x : float) (ndigits : Z) : float :=
  match Prim2SF x with
  | S754_finite s m e =>
      if 0 <=? e then x
      else nearest_float s (div_rne (Zpos m * 10 ^ ndigits) (2 ^ (- e))) (10 ^ ndigits)
  | _ => x
  end.

(** Decimal digits of [n >= 0], most significant first. *)
Fixpoint dec_digits_aux (fuel : nat) (n : Z) (acc : pystr) : pystr :=
  match fuel with
  | O => acc
  | S f =>
      let acc' := (48 + n mod 10) :: acc in
      if n <? 10 then acc' else dec_digits_aux f (n / 10) acc'
  end.

Definition dec_digits (n : Z) : pystr :=
  dec_digits_aux (S (Z.to_nat (Z.log2 n))) n [].

Definition ndigits10 (n : Z) : Z := Z.of_nat (length (dec_digits n)).

(** [int.__repr__] *)
Definition int_repr (z : Z) : pystr :=
  if z <? 0 then 45 :: dec_digits (- z) else dec_digits z.

Module ShortRepr.

(** [a/b ?= c/d] for positive denominators. *)
Definition qcmp (a b c d : Z) : comparison := Z.compare (a * d) (c * b).

(** [D * 10^s] as a fraction. *)
Definition dec (D s : Z) : Z * Z :=
  if 0 <=? s then (D * 10 ^ s, 1) else (D, 10 ^ (- s)).

Section Digits.
(** The positive finite float [m * 2^e]. *)
Variables (m : positive) (e : Z).

Definition xq : Z * Z :=
  if 0 <=? e then (Zpos m * 2 ^ e, 1) else (Zpos m, 2 ^ (- e)).

(** The bounds of the interval of reals that read back as [x]: halfway
    to the neighbouring floats, the lower gap halved at a power of two. *)
Definition bound (num : Z) : Z * Z :=
  if 2 <=? e then (num * 2 ^ (e - 2), 1) else (num, 2 ^ (2 - e)).
Definition lo : Z * Z :=
  if (Zpos m =? 2 ^ 52) && (-1074 <? e) then bound (4 * Zpos m - 1)
  else bound (4 * Zpos m - 2).
Definition hi : Z * Z := bound (4 * Zpos m + 2).

Definition cmpq (u v : Z * Z) : comparison := qcmp (fst u) (snd u) (fst v) (snd v).

(** Reading back is round-half-even, so the bounds belong to the interval
    when [m] is even. *)
Definition inside (c : Z * Z) : bool :=
  match cmpq lo c, cmpq c hi with
  | Lt, Lt => true
  | Eq, Lt | Lt, Eq => Z.even (Zpos m)
  | _, _ => false
  end.

(** Decimal exponent of the leading digit of [x]. *)
Definition k10 : Z :=
  let t := ndigits10 (fst xq) - ndigits10 (snd xq) in
  match cmpq xq (dec 1 t) with Lt => t - 1 | _ => t end.

(** [floor (x / 10^s)] *)
Definition floor_at (s : Z) : Z :=
  if 0 <=? s then fst xq / (snd xq * 10 ^ s) else (fst xq * 10 ^ (- s)) / snd xq.

(** dtoa mode 0: for [n = 1, 2, ...] the [n]-digit decimals just below and
    just above [x]; the first [n] at which one of them reads back as [x]
    wins, the nearer one if both do. *)
Fixpoint search (fuel : nat) (n : Z) : Z * Z :=
  let s := k10 + 1 - n in
  let D := floor_at s in
  let cl := dec D s in
  let ch := dec (D + 1) s in
  match fuel with
  | O => (if inside cl then D else D + 1, s)
  | S f =>
      match inside cl, inside ch with
      | true, true =>
          (* compare x - cl with ch - x *)
          match qcmp (2 * fst xq) (snd xq)
                     (fst cl * snd ch + fst ch * snd cl) (snd cl * snd ch) with
          | Lt => (D, s)
          | Gt => (D + 1, s)
          | Eq => if Z.even D then (D, s) else (D + 1, s)
          end
      | true, false => (D, s)
      | false, true => (D + 1, s)
      | false, false => search f (n + 1)
      end
  end.
End Digits.

(** Trailing zeros are dropped from the digit string. *)
Fixpoint strip (fuel : nat) (D s : Z) : Z * Z :=
  match fuel with
  | O => (D, s)
  | S f => if (0 <? D) && (D mod 10 =? 0) then strip f (D / 10) (s + 1) else (D, s)
  end.

Definition shortest (m : positive) (e : Z) : Z * Z :=
  let '(D, s) := search m e 16 1 in strip 20 D s.

End ShortRepr.

Definition zeros (n : Z) : pystr := repeat 48 (Z.to_nat n).

(** [format_float_short] with format code ['r'] and [Py_DTSF_ADD_DOT_0]:
    [ds] are the digits, [decpt] the position of the decimal point. *)
Definition format_short (ds : pystr) (decpt : Z) : pystr :=
  let L := Z.of_nat (length ds) in
  if (decpt <=? -4) || (16 <? decpt) then
    let ex := decpt - 1 in
    firstn 1 ds ++ (if 1 <? L then 46 :: skipn 1 ds else []) ++ [101] ++
    (if ex <? 0 then [45] else [43]) ++
    (if Z.abs ex <? 10 then 48 :: dec_digits (Z.abs ex) else dec_digits (Z.abs ex))
  else if decpt <=? 0 then [48; 46] ++ zeros (- decpt) ++ ds
  else if decpt <? L then firstn (Z.to_nat decpt) ds ++ 46 :: skipn (Z.to_nat decpt) ds
  else ds ++ zeros (decpt - L) ++ [46; 48].

(** [float.__repr__] *)
Definition float_repr (x : float) : pystr :=
  match Prim2SF x with
  | S754_zero s => (if s then [45] else []) ++ lit "0.0"
  | S754_infinity s => if s then lit "-inf" else lit "inf"
  | S754_nan => lit "nan"
  | S754_finite s m e =>
      let '(D, sc) := ShortRepr.shortest m e in
      let ds := dec_digits D in
      (if s then [45] else []) ++ format_short ds (Z.of_nat (length ds) + sc)
  end.

(** ** Python values handled by canonicalize_v1.py *)

Inductive pyval :=
| PNone
| PBool (b : bool)
| PInt (z : Z)
| PFloat (f : float)
| PStr (s : pystr)
| PList (l : list pyval)
| PTuple (l : list pyval)
(** a [dict] (or [OrderedDict]) with [str] keys, in insertion order *)
| PDict (kvs : list (pystr * pyval))
(** a value of any other Python type, by the name of its type *)
| POther (tyname : pystr).

(** [<] on [str]: lexicographic on code points. *)
Fixpoint str_ltb (a b : pystr) : bool :=
  match a, b with
  | [], [] => false
  | [], _ :: _ => true
  | _ :: _, [] => false
  | x :: a', y :: b' => if x <? y then true else if y <? x then false else str_ltb a' b'
  end.

(** [sorted(d.items())]: a stable sort of the items by key (keys of a dict
    are distinct, so the values are never compared). *)
Fixpoint insert_item {A} (it : pystr * A) (l : list (pystr * A)) : list (pystr * A) :=
  match l with
  | [] => [it]
  | it' :: l' => if str_ltb (fst it') (fst it) then it' :: insert_item it l' else it :: l
  end.

Fixpoint sort_items {A} (l : list (pystr * A)) : list (pystr * A) :=
  match l with
  | [] => []
  | it :: l' => insert_item it (sort_items l')
  end.

Fixpoint sequence {A} (l : list (exc A)) : exc (list A) :=
  match l with
  | [] => Ok []
  | m :: l' => a <- m ;; r <- sequence l' ;; Ok (a :: r)
  end.

Fixpoint sequence_items {A} (l : list (pystr * exc A)) : exc (list (pystr * A)) :=
  match l with
  | [] => Ok []
  | (k, m) :: l' => a <- m ;; r <- sequence_items l' ;; Ok ((k, a) :: r)
  end.

(** [canonicalize_value]. The canonical value of every dict item is computed
    (the computation is pure), the items are sorted by key, and the results
    are then taken in sorted order, so the first failure in sorted order is
    the one raised, as in the generator over [sorted(value.items())]. *)
Fixpoint canonicalize_value (v : pyval) : exc pyval :=
  match v with
  | PNone => Ok PNone
  | PBool b => Ok (PBool b)
  | PInt z => Ok (PInt z)
  | PFloat f => Ok (PFloat f)
  | PStr s => Ok (PStr s)
  | PDict kvs =>
      kvs' <- sequence_items
                (sort_items (map (fun kv => (fst kv, canonicalize_value (snd kv))) kvs)) ;;
      Ok (PDict kvs')
  | PList l => l' <- sequence (map canonicalize_value l) ;; Ok (PList l')
  | PTuple l => l' <- sequence (map canonicalize_value l) ;; Ok (PList l')
  | POther t =>
      Raise (ValueError (lit "Unsupported type for canonicalization: " ++ t))
  end.

(** ** [json.dumps(..., ensure_ascii=False, separators=(',', ':'), sort_keys=True)] *)

(** [encode_basestring] (no ASCII escaping): quotes, backslash and control
    characters are escaped, everything else is emitted as is. *)
Definition escape_char (c : Z) : pystr :=
  if c =? 34 then [92; 34]
  else if c =? 92 then [92; 92]
  else if c =? 10 then [92; 110]
  else if c =? 13 then [92; 114]
  else if c =? 9 then [92; 116]
  else if c =? 8 then [92; 98]
  else if c =? 12 then [92; 102]
  else if c <? 32 then [92; 117; 48; 48; hex_digit (Z.shiftr c 4); hex_digit (Z.land c 15)]
  else [c].

Definition encode_basestring (s : pystr) : pystr := [34] ++ flat_map escape_char s ++ [34].

(** Floats: [NaN], [Infinity] and [-Infinity] (allow_nan defaults to True),
    otherwise [float.__repr__]. *)
Definition json_float (f : float) : pystr :=
  if is_nan f then lit "NaN"
  else if (f =? infinity)%float then lit "Infinity"
  else if (f =? neg_infinity)%float then lit "-Infinity"
  else float_repr f.

Fixpoint join (sep : pystr) (l : list pystr) : pystr :=
  match l with
  | [] => []
  | [x] => x
  | x :: l' => x ++ sep ++ join sep l'
  end.

Fixpoint dumps (v : pyval) : exc pystr :=
  match v with
  | PNone => Ok (lit "null")
  | PBool b => Ok (if b then lit "true" else lit "false")
  | PInt z => Ok (int_repr z)
  | PFloat f => Ok (json_float f)
  | PStr s => Ok (encode_basestring s)
  | PList l | PTuple l =>
      parts <- sequence (map dumps l) ;; Ok ([91] ++ join [44] parts ++ [93])
  | PDict kvs =>
      items <- sequence_items
                 (sort_items (map (fun kv => (fst kv, dumps (snd kv))) kvs)) ;;
      Ok ([123] ++ join [44] (map (fun kv => encode_basestring (fst kv) ++ [58] ++ snd kv) items)
            ++ [125])
  | POther t =>
      Raise (TypeError (lit "Object of type " ++ t ++ lit " is not JSON serializable"))
  end.

Section Canonical.

(** [json.loads], used by [canonicalize_json] on [str] input only. *)
Variable json_loads : pystr -> exc pyval.

(** [canonicalize_json] *)
Definition canonicalize_json (data : pyval) : exc pystr :=
  data' <- (match data with PStr s => json_loads s | _ => Ok data end) ;;
  canonical_data <- canonicalize_value data' ;;
  dumps canonical_data.

(** [compute_canonical_hash] *)
Definition compute_canonical_hash (data : pyval) : exc pystr :=
  canonical <- canonicalize_json data ;; sha256_hex canonical.

End Canonical.

(** ** compare_tampa.py: [ComparisonResult._compare] *)

(** An execution is a [dict]; [execution.get("outputs", {})]. *)
Definition execution := list (pystr * pyval).

Fixpoint dict_get (d : list (pystr * pyval)) (k : pystr) (default : pyval) : pyval :=
  match d with
  | [] => default
  | (k', v) :: d' => if list_eq_dec Z.eq_dec k k' then v else dict_get d' k default
  end.

Definition get_outputs (e : execution) : pyval := dict_get e (lit "outputs") (PDict []).

(** [str(e)] of a caught exception. *)
Definition exn_str (e : exn) : pystr :=
  match e with
  | ValueError msg | TypeError msg => msg
  | UnicodeEncodeError => lit "'utf-8' codec can't encode character: surrogates not allowed"
  end.

(** A discrepancy entry: [{"execution_index", "error"}] or
    [{"execution_index", "canonical_hash", "output"}]. *)
Inductive discrepancy :=
| DError (execution_index : nat) (error : pystr)
| DHash (execution_index : nat) (canonical_hash : pystr) (output : pyval).

Record comparison_result := {
  consensus_reached : bool;
  canonical_output : option pyval;
  discrepancies : list discrepancy
}.

Section Compare.

Variable json_loads : pystr -> exc pyval.

(** One iteration of the hashing loop: the state is [(hashes, discrepancies)],
    both lists in append order. *)
Definition hash_step (st : list (nat * pystr * pyval) * list discrepancy)
    (ie : nat * execution) : list (nat * pystr * pyval) * list discrepancy :=
  let '(hashes, disc) := st in
  let '(i, ex) := ie in
  let output := get_outputs ex in
  match compute_canonical_hash json_loads output with
  | Ok hash_val => (hashes ++ [(i, hash_val, output)], disc)
  | Raise e =>
      (hashes, disc ++ [DError i (lit "Failed to canonicalize: " ++ exn_str e)])
  end.

Definition enumerate {A} (l : list A) : list (nat * A) := combine (seq 0 (length l)) l.

(** [len(set(h[1] for h in hashes))] *)
Definition n_unique (hs : list (nat * pystr * pyval)) : nat :=
  length (nodup (list_eq_dec Z.eq_dec) (map (fun h => snd (fst h)) hs)).

Definition hash_output (h : nat * pystr * pyval) : pyval := snd h.

Definition compare (executions : list execution) : comparison_result :=
  match executions with
  | [] => {| consensus_reached := false; canonical_output := None; discrepancies := [] |}
  | [ex] => {| consensus_reached := true; canonical_output := Some (get_outputs ex);
               discrepancies := [] |}
  | _ =>
      let '(hashes, disc) := fold_left hash_step (enumerate executions) ([], []) in
      match hashes with
      | [] => {| consensus_reached := false; canonical_output := None;
                 discrepancies := disc |}
      | h0 :: _ =>
          if Nat.eqb (n_unique hashes) 1 then
            {| consensus_reached := true; canonical_output := Some (hash_output h0);
               discrepancies := disc |}
          else
            {| consensus_reached := false; canonical_output := None;
               discrepancies :=
                 disc ++ map (fun h => let '(i, hv, o) := h in DHash i hv o) hashes |}
      end
  end.

End Compare.

Definition result_ex (n : Z) : execution :=
  [(lit "outputs", PDict [(lit "result", PInt n)])].

Section CompareDefs.

Variable json_loads : pystr -> exc pyval.

(** The executions that hash, as [(index, hash, output)], in index order. *)
Definition hashed (l : list (nat * execution)) : list (nat * pystr * pyval) :=
  flat_map (fun ie => match compute_canonical_hash json_loads (get_outputs (snd ie)) with
                      | Ok h => [(fst ie, h, get_outputs (snd ie))]
                      | Raise _ => []
                      end) l.

(** The error entries of the executions that fail to hash. *)
Definition hash_errors (l : list (nat * execution)) : list discrepancy :=
  flat_map (fun ie => match compute_canonical_hash json_loads (get_outputs (snd ie)) with
                      | Ok _ => []
                      | Raise e => [DError (fst ie) (lit "Failed to canonicalize: " ++ exn_str e)]
                      end) l.

End CompareDefs.

Definition key_lt {A : Type} (p q : pystr * A) : Prop := str_ltb (fst p) (fst q) = true.

Definition scalar_value (c : Z) : Prop :=
  0 <= c <= 0x10FFFF /\ ~ (0xD800 <= c <= 0xDFFF).

(** [p] is below [q] at a position both have. *)
Fixpoint decisive (p q : list Z) : bool :=
  match p, q with
  | u :: p', v :: q' => (u <? v) || ((u =? v) && decisive p' q')
  | _, _ => false
  end.

(** [a.encode('utf-8') < b.encode('utf-8')]: [bytes] compare lexicographically
    on unsigned byte values. *)
Definition utf8_ltb (a b : pystr) : bool :=
  match utf8_encode a, utf8_encode b with
  | Ok ea, Ok eb => str_ltb ea eb
  | _, _ => false
  end.

Definition int_char (c : Z) : Prop := c = 45 \/ 48 <= c <= 57.

(** No value of an unsupported type occurs in [v]. *)
Fixpoint supported (v : pyval) : bool :=
  match v with
  | POther _ => false
  | PList l | PTuple l => forallb supported l
  | PDict kvs => forallb (fun kv => supported (snd kv)) kvs
  | _ => true
  end.

(** How deeply lists, tuples and dicts are nested in [v]. *)
Fixpoint depth (v : pyval) : nat :=
  match v with
  | PList l | PTuple l => S (list_max (map depth l))
  | PDict kvs => S (list_max (map (fun kv => depth (snd kv)) kvs))
  | _ => O
  end.

(** [canonicalize_value] recurses once per level of nesting, through two
    Python frames (the call and its generator or comprehension), and
    [json.loads] and [json.dumps] recurse once per level too. CPython raises
    RecursionError past its default limit of 1000 frames, a few hundred levels
    deep, and the embedding has no such limit: the properties that depend on
    the recursion coming back are stated for values nested at most this deep. *)
Definition max_nesting : nat := 100.

Definition unsupported_error (e : exn) : Prop :=
  exists t, e = ValueError (lit "Unsupported type for canonicalization: " ++ t).

(** What [canonicalize_value] does with [v]: it succeeds on supported values,
    with a supported result, and raises the unsupported-type error otherwise. *)
Definition canon_outcome (v : pyval) : Prop :=
  match canonicalize_value v with
  | Ok v' => supported v = true /\ supported v' = true
  | Raise e => supported v = false /\ unsupported_error e
  end.

(** A [json.loads] for inputs that are not [str], on which it is not called. *)
Definition no_loads : pystr -> exc pyval := fun _ => Raise (ValueError []).

(** ** schema_tampa.py: the Pydantic models *)

Module Span.
Record t := {
  text : pystr;
  start : Z;
  end_ : Z;
  context : pystr;
  source_url : option pystr;
  main_content_match : bool;
  drhash : pystr }.
End Span.

Module SupportingSource.
Record t := { url : pystr; authority_score : float }.
End SupportingSource.

Module ProvenanceBreakdown.
Record t := {
  match_base : float;
  main_content_bonus : float;
  integrity_adjust : float;
  multisource_bonus : float;
  authority_boost : float;
  final : float }.
End ProvenanceBreakdown.

Module Internal.
Record t := { drhash : pystr; canonical_sample : pystr; canonicalize_version : pystr }.
End Internal.

Module TampaOutput.
Record t := {
  verdict_hint : pystr;
  matched_spans : list Span.t;
  supporting_sources : list SupportingSource.t;
  checks : list pystr;
  provenance_breakdown : ProvenanceBreakdown.t;
  provenanceConfidence : float;
  internal : Internal.t;
  runtime_ms : Z;
  sigma_trace : list Z;
  tampa_sigma : Z;
  model_version : option pystr;
  prompt_version : option pystr }.
End TampaOutput.

(** ** Pydantic (v2, lax mode) validation of a [dict] against the models

    [None] is a [ValidationError]. A number is accepted for a [float] field
    (an [int] is converted to the nearest float, a [bool] to 0.0 or 1.0); an
    [int] field accepts an [int], a [bool], or a float with no fractional
    part. Numeric strings are parsed by Pydantic: that parser is a parameter
    ([parse_float], [parse_int]). Field constraints are checked as
    pydantic-core's constrained validators do: [ge] rejects unless [v >= ge]
    and [le] rejects unless [v <= le], so a NaN, accepted by a [float] field
    without bounds ([allow_inf_nan] is on by default), fails both. [pattern] uses the Rust regex engine, where [^...$] anchors the
    whole string. Keys that are not fields are ignored. *)

Notation "'let?' x := m 'in' k" := (match m with Some x => k | None => None end)
  (at level 200, x name, m at level 100, k at level 200).

Definition int_to_float (z : Z) : float := nearest_float (z <? 0) (Z.abs z) 1.

(** A float with no fractional part, as an integer. *)
Definition float_to_int (f : float) : option Z :=
  match Prim2SF f with
  | S754_zero _ => Some 0
  | S754_finite s m e =>
      let n := if 0 <=? e then Zpos m * 2 ^ e
               else if Zpos m mod 2 ^ (- e) =? 0 then Zpos m / 2 ^ (- e) else -1 in
      if n <? 0 then None else Some (if s then - n else n)
  | _ => None
  end.

Fixpoint field (d : list (pystr * pyval)) (name : pystr) : option pyval :=
  match d with
  | [] => None
  | (k, v) :: d' => if list_eq_dec Z.eq_dec k name then Some v else field d' name
  end.

Section Pydantic.

Variable parse_float : pystr -> option float.
Variable parse_int : pystr -> option Z.

Definition as_float (v : pyval) : option float :=
  match v with
  | PFloat f => Some f
  | PInt z => Some (int_to_float z)
  | PBool b => Some (if b then 1%float else 0%float)
  | PStr s => parse_float s
  | _ => None
  end.

Definition as_int (v : pyval) : option Z :=
  match v with
  | PInt z => Some z
  | PBool b => Some (if b then 1 else 0)
  | PFloat f => float_to_int f
  | PStr s => parse_int s
  | _ => None
  end.

Definition as_str (v : pyval) : option pystr :=
  match v with PStr s => Some s | _ => None end.

Definition ascii_lower (s : pystr) : pystr :=
  map (fun c => if (65 <=? c) && (c <=? 90) then c + 32 else c) s.

Definition str_in (s : pystr) (ws : list string) : bool :=
  existsb (fun w => if list_eq_dec Z.eq_dec s (lit w) then true else false) ws.

Definition as_bool (v : pyval) : option bool :=
  match v with
  | PBool b => Some b
  | PInt 0 => Some false
  | PInt 1 => Some true
  | PFloat f => if (f =? 0)%float then Some false else if (f =? 1)%float then Some true else None
  | PStr s =>
      if str_in (ascii_lower s) ["0"; "off"; "f"; "false"; "n"; "no"]%string then Some false
      else if str_in (ascii_lower s) ["1"; "on"; "t"; "true"; "y"; "yes"]%string then Some true
      else None
  | _ => None
  end.

Definition as_list {A} (elem : pyval -> option A) (v : pyval) : option (list A) :=
  match v with
  | PList l | PTuple l =>
      fold_right (fun x acc => let? a := elem x in let? r := acc in Some (a :: r)) (Some []) l
  | _ => None
  end.

Definition as_optional {A} (elem : pyval -> option A) (v : pyval) : option (option A) :=
  match v with PNone => Some None | _ => let? a := elem v in Some (Some a) end.

(** [Field(..., ge=lo, le=hi)] on a float: pydantic-core fails with
    [greater_than_equal] unless [f >= lo] holds and with [less_than_equal]
    unless [f <= hi] holds, so a NaN, for which both are false, fails. *)
Definition float_in (lo hi : float) (v : pyval) : option float :=
  let? f := as_float v in
  if (lo <=? f)%float && (f <=? hi)%float then Some f else None.

Definition int_ge (lo : Z) (v : pyval) : option Z :=
  let? z := as_int v in if z <? lo then None else Some z.

Definition required {A} (d : list (pystr * pyval)) (name : string) (p : pyval -> option A) : option A :=
  let? v := field d (lit name) in p v.

Definition optional {A} (d : list (pystr * pyval)) (name : string) (p : pyval -> option A)
    (default : A) : option A :=
  match field d (lit name) with Some v => p v | None => Some default end.

Definition as_dict (v : pyval) : option (list (pystr * pyval)) :=
  match v with PDict d => Some d | _ => None end.

Definition span_model (v : pyval) : option Span.t :=
  let? d := as_dict v in
  let? text := required d "text" as_str in
  let? start := required d "start" (int_ge 0) in
  let? end_ := required d "end" (int_ge 0) in
  let? context := required d "context" as_str in
  let? source_url := optional d "source_url" (as_optional as_str) None in
  let? main_content_match := required d "main_content_match" as_bool in
  let? drhash := required d "drhash" as_str in
  Some {| Span.text := text; Span.start := start; Span.end_ := end_; Span.context := context;
          Span.source_url := source_url; Span.main_content_match := main_content_match;
          Span.drhash := drhash |}.

Definition supporting_source_model (v : pyval) : option SupportingSource.t :=
  let? d := as_dict v in
  let? url := required d "url" as_str in
  let? authority_score := required d "authority_score" (float_in 0 1) in
  Some {| SupportingSource.url := url; SupportingSource.authority_score := authority_score |}.

Definition provenance_breakdown_model (v : pyval) : option ProvenanceBreakdown.t :=
  let? d := as_dict v in
  let? match_base := required d "match_base" (float_in 0 1) in
  let? main_content_bonus := required d "main_content_bonus" (float_in 0 1) in
  let? integrity_adjust := required d "integrity_adjust" (float_in (-1) 1) in
  let? multisource_bonus := required d "multisource_bonus" (float_in 0 1) in
  let? authority_boost := required d "authority_boost" (float_in 0 1) in
  let? final := required d "final" (float_in 0 0.995) in
  Some {| ProvenanceBreakdown.match_base := match_base;
          ProvenanceBreakdown.main_content_bonus := main_content_bonus;
          ProvenanceBreakdown.integrity_adjust := integrity_adjust;
          ProvenanceBreakdown.multisource_bonus := multisource_bonus;
          ProvenanceBreakdown.authority_boost := authority_boost;
          ProvenanceBreakdown.final := final |}.

Definition internal_model (v : pyval) : option Internal.t :=
  let? d := as_dict v in
  let? drhash := required d "drhash" as_str in
  let? canonical_sample := required d "canonical_sample" as_str in
  let? canonicalize_version := required d "canonicalize_version" as_str in
  Some {| Internal.drhash := drhash; Internal.canonical_sample := canonical_sample;
          Internal.canonicalize_version := canonicalize_version |}.

(** [pattern="^(JA|WEAK_MATCH|NO_MATCH)$"] *)
Definition verdict_pattern (s : pystr) : bool :=
  str_in s ["JA"; "WEAK_MATCH"; "NO_MATCH"]%string.

Definition verdict_str (v : pyval) : option pystr :=
  let? s := as_str v in if verdict_pattern s then Some s else None.

(** [TampaOutput] called with the items of [tampa_json] as keyword arguments. *)
Definition tampa_output_model (d : list (pystr * pyval)) : option TampaOutput.t :=
  let? verdict_hint := required d "verdict_hint" verdict_str in
  let? matched_spans := required d "matched_spans" (as_list span_model) in
  let? supporting_sources := optional d "supporting_sources" (as_list supporting_source_model) [] in
  let? checks := required d "checks" (as_list as_str) in
  let? provenance_breakdown := required d "provenance_breakdown" provenance_breakdown_model in
  let? provenanceConfidence := required d "provenanceConfidence" (float_in 0 0.995) in
  let? internal := required d "internal" internal_model in
  let? runtime_ms := required d "runtime_ms" as_int in
  let? sigma_trace := required d "sigma_trace" (as_list as_int) in
  let? tampa_sigma := required d "tampa_sigma"
                        (fun v => let? z := as_int v in
                                  if (z <? 0) || (12 <? z) then None else Some z) in
  let? model_version := optional d "model_version" (as_optional as_str) None in
  let? prompt_version := optional d "prompt_version" (as_optional as_str) None in
  Some {| TampaOutput.verdict_hint := verdict_hint; TampaOutput.matched_spans := matched_spans;
          TampaOutput.supporting_sources := supporting_sources; TampaOutput.checks := checks;
          TampaOutput.provenance_breakdown := provenance_breakdown;
          TampaOutput.provenanceConfidence := provenanceConfidence;
          TampaOutput.internal := internal; TampaOutput.runtime_ms := runtime_ms;
          TampaOutput.sigma_trace := sigma_trace; TampaOutput.tampa_sigma := tampa_sigma;
          TampaOutput.model_version := model_version;
          TampaOutput.prompt_version := prompt_version |}.

End Pydantic.

(** ** validate_tampa.py: [validate_tampa_output] *)

(** The error codes of the returned message ["code:details"], with their
    details. *)
Inductive verr :=
| pydantic_validation_failed
| missing_top_field (field : pystr)
| provenance_mismatch (pc pb_final : float)
| provenance_out_of_range (field : pystr) (value : float)
| drhash_mismatch (expected got : pystr)
| span_invalid_type (idx : Z)
| span_invalid_range (idx : Z) (reason : pystr)
| span_out_of_bounds (idx : Z) (start end_ len : Z)
| span_text_mismatch (idx : Z) (expected got : pystr)
| span_drhash_mismatch (idx : Z) (expected got : pystr).

(** [(True, None)] or [(False, message)]. *)
Inductive vresult :=
| Valid
| Invalid (e : verr).

(** [text[start:end]] with Python's index normalisation. *)
Definition py_index (len i : Z) : Z :=
  if i <? 0 then Z.max 0 (i + len) else Z.min i len.

Definition py_slice (s : pystr) (i j : Z) : pystr :=
  let len := Z.of_nat (length s) in
  let i' := py_index len i in
  let j' := py_index len j in
  firstn (Z.to_nat (j' - i')) (skipn (Z.to_nat i') s).

Definition pystr_eqb (a b : pystr) : bool := if list_eq_dec Z.eq_dec a b then true else false.

(** [0.0 <= x <= hi] and the like, on floats. *)
Definition in_range (lo hi x : float) : bool := (lo <=? x)%float && (x <=? hi)%float.

(** Step 6: the loop over [enumerate(output.matched_spans)]. [start] and [end]
    are [int]s after Pydantic validation, so the [isinstance] test always
    passes. *)
Fixpoint check_spans (canonical_text expected_drhash : pystr) (idx : Z) (spans : list Span.t)
  : option verr :=
  match spans with
  | [] => None
  | span :: rest =>
      let len := Z.of_nat (length canonical_text) in
      if Span.start span <? 0 then Some (span_invalid_range idx (lit "start<0"))
      else if Span.end_ span <? Span.start span then Some (span_invalid_range idx (lit "end<start"))
      else if (len <? Span.start span) || (len <? Span.end_ span) then
        Some (span_out_of_bounds idx (Span.start span) (Span.end_ span) len)
      else
        let actual_substring := py_slice canonical_text (Span.start span) (Span.end_ span) in
        if negb (pystr_eqb actual_substring (Span.text span)) then
          Some (span_text_mismatch idx (Span.text span) actual_substring)
        else if negb (pystr_eqb (Span.drhash span) expected_drhash) then
          Some (span_drhash_mismatch idx expected_drhash (Span.drhash span))
        else check_spans canonical_text expected_drhash (idx + 1) rest
  end.

Definition PROVENANCE_TOLERANCE : float := 0.002.

(** Steps 3 and 4 on the validated output. *)
Definition check_provenance (output : TampaOutput.t) : option verr :=
  let pc := TampaOutput.provenanceConfidence output in
  let pb := TampaOutput.provenance_breakdown output in
  let pb_final := ProvenanceBreakdown.final pb in
  let pc_rounded := py_round pc 3 in
  let pb_final_rounded := py_round pb_final 3 in
  if (PROVENANCE_TOLERANCE <? abs (pc_rounded - pb_final_rounded))%float then
    Some (provenance_mismatch pc_rounded pb_final_rounded)
  else if negb (in_range 0 0.995 pc) then
    Some (provenance_out_of_range (lit "provenanceConfidence") pc)
  else if negb (in_range 0 1 (ProvenanceBreakdown.match_base pb)) then
    Some (provenance_out_of_range (lit "match_base") (ProvenanceBreakdown.match_base pb))
  else if negb (in_range 0 1 (ProvenanceBreakdown.main_content_bonus pb)) then
    Some (provenance_out_of_range (lit "main_content_bonus") (ProvenanceBreakdown.main_content_bonus pb))
  else if negb (in_range (-1) 1 (ProvenanceBreakdown.integrity_adjust pb)) then
    Some (provenance_out_of_range (lit "integrity_adjust") (ProvenanceBreakdown.integrity_adjust pb))
  else if negb (in_range 0 1 (ProvenanceBreakdown.multisource_bonus pb)) then
    Some (provenance_out_of_range (lit "multisource_bonus") (ProvenanceBreakdown.multisource_bonus pb))
  else if negb (in_range 0 1 (ProvenanceBreakdown.authority_boost pb)) then
    Some (provenance_out_of_range (lit "authority_boost") (ProvenanceBreakdown.authority_boost pb))
  else if negb (in_range 0 0.995 (ProvenanceBreakdown.final pb)) then
    Some (provenance_out_of_range (lit "final") (ProvenanceBreakdown.final pb))
  else None.

Definition required_fields : list string :=
  ["verdict_hint"; "matched_spans"; "provenanceConfidence"; "provenance_breakdown"; "internal"]%string.

Fixpoint first_missing (d : list (pystr * pyval)) (fields : list string) : option pystr :=
  match fields with
  | [] => None
  | f :: fs => match field d (lit f) with
               | None => Some (lit f)
               | Some _ => first_missing d fs
               end
  end.

(** [validate_tampa_output]. [sha256_hex(canonical_text)] raises on a
    [canonical_text] that UTF-8 cannot encode. *)
Definition validate_tampa_output (parse_float : pystr -> option float)
    (parse_int : pystr -> option Z) (tampa_json : list (pystr * pyval)) (canonical_text : pystr)
  : exc vresult :=
  match tampa_output_model parse_float parse_int tampa_json with
  | None => Ok (Invalid pydantic_validation_failed)
  | Some output =>
      match first_missing tampa_json required_fields with
      | Some f => Ok (Invalid (missing_top_field f))
      | None =>
          match check_provenance output with
          | Some e => Ok (Invalid e)
          | None =>
              expected_drhash <- sha256_hex canonical_text ;;
              let got := Internal.drhash (TampaOutput.internal output) in
              if negb (pystr_eqb got expected_drhash) then
                Ok (Invalid (drhash_mismatch expected_drhash got))
              else
                match check_spans canonical_text expected_drhash 0
                        (TampaOutput.matched_spans output) with
                | Some e => Ok (Invalid e)
                | None => Ok Valid
                end
          end
      end
  end.

(** ** Examples of records *)

Definition doc_text : pystr := lit "This is a test document.".

Definition doc_drhash : pystr :=
  match sha256_hex doc_text with Ok h => h | Raise _ => [] end.

Definition span_ex (text : string) (start end_ : Z) : pyval :=
  PDict [(lit "text", PStr (lit text)); (lit "start", PInt start); (lit "end", PInt end_);
         (lit "context", PStr doc_text); (lit "source_url", PNone);
         (lit "main_content_match", PBool true); (lit "drhash", PStr doc_drhash)].

(** A record in the shape of the tests of validate_tampa.py. *)
Definition tampa_ex (pc final match_base : float) (spans : list pyval) : list (pystr * pyval) :=
  [(lit "verdict_hint", PStr (lit "JA"));
   (lit "matched_spans", PList spans);
   (lit "supporting_sources", PList []);
   (lit "checks", PList [PStr (lit "existence"); PStr (lit "exact_match")]);
   (lit "provenance_breakdown",
     PDict [(lit "match_base", PFloat match_base); (lit "main_content_bonus", PFloat 0.1);
            (lit "integrity_adjust", PFloat 0); (lit "multisource_bonus", PFloat 0);
            (lit "authority_boost", PFloat 0); (lit "final", PFloat final)]);
   (lit "provenanceConfidence", PFloat pc);
   (lit "internal", PDict [(lit "drhash", PStr doc_drhash); (lit "canonical_sample", PStr doc_text);
                           (lit "canonicalize_version", PStr (lit "canonicalize_v1"))]);
   (lit "runtime_ms", PInt 150);
   (lit "sigma_trace", PList [PInt 1; PInt 2; PInt 3]);
   (lit "tampa_sigma", PInt 3)].

(** No numeric strings occur in the example records. *)
Definition no_parse_float : pystr -> option float := fun _ => None.
Definition no_parse_int : pystr -> option Z := fun _ => None.

Definition validate_ex (j : list (pystr * pyval)) : exc vresult :=
  validate_tampa_output no_parse_float no_parse_int j doc_text.

Definition float_ok (lo hi x : float) : Prop := in_range lo hi x = true.

Definition pb_ok (pb : ProvenanceBreakdown.t) : Prop :=
  float_ok 0 1 (ProvenanceBreakdown.match_base pb) /\
  float_ok 0 1 (ProvenanceBreakdown.main_content_bonus pb) /\
  float_ok (-1) 1 (ProvenanceBreakdown.integrity_adjust pb) /\
  float_ok 0 1 (ProvenanceBreakdown.multisource_bonus pb) /\
  float_ok 0 1 (ProvenanceBreakdown.authority_boost pb) /\
  float_ok 0 0.995 (ProvenanceBreakdown.final pb).

(** The fields of [provenance_breakdown] with the bounds of their range checks
    in step 4 of [validate_tampa_output]. *)
Definition breakdown_bounds : list (string * float * float) :=
  [("match_base"%string, 0%float, 1%float); ("main_content_bonus"%string, 0%float, 1%float);
   ("integrity_adjust"%string, (-1)%float, 1%float);
   ("multisource_bonus"%string, 0%float, 1%float); ("authority_boost"%string, 0%float, 1%float);
   ("final"%string, 0%float, 0.995%float)].

Definition span_error (e : verr) : bool :=
  match e with
  | span_invalid_type _ | span_invalid_range _ _ | span_out_of_bounds _ _ _ _
  | span_text_mismatch _ _ _ | span_drhash_mismatch _ _ _ => true
  | _ => false
  end.

Definition unit_components : list string :=
  ["match_base"; "main_content_bonus"; "multisource_bonus"; "authority_boost"]%string.

(** The hash of an execution's outputs, or the empty string when it fails. *)
Definition hash_or_empty (loads : pystr -> exc pyval) (ex : execution) : pystr :=
  match compute_canonical_hash loads (get_outputs ex) with Ok h => h | Raise _ => [] end.

(** An execution whose outputs are a Python [set], which [json.dumps] refuses. *)
Definition set_ex : execution := [(lit "outputs", POther (lit "set"))].

(** ** compare_tampa.py: [ComparisonResult.to_dict] *)

Module ComparisonResult.

(** One entry of [self.discrepancies], as the dict the comparator builds. *)
Definition discrepancy_to_dict (d : discrepancy) : pyval :=
  match d with
  | DError i e => PDict [(lit "execution_index", PInt (Z.of_nat i)); (lit "error", PStr e)]
  | DHash i h o =>
      PDict [(lit "execution_index", PInt (Z.of_nat i)); (lit "canonical_hash", PStr h);
             (lit "output", o)]
  end.

(** [ComparisonResult.to_dict]; [len(self.executions)] is the length of the
    input list. *)
Definition to_dict (executions : list execution) (r : comparison_result) : pyval :=
  PDict [(lit "consensus_reached", PBool (consensus_reached r));
         (lit "canonical_output",
            match canonical_output r with Some o => o | None => PNone end);
         (lit "num_executions", PInt (Z.of_nat (length executions)));
         (lit "num_discrepancies", PInt (Z.of_nat (length (discrepancies r))));
         (lit "discrepancies", PList (map discrepancy_to_dict (discrepancies r)))].

End ComparisonResult.

(** The [execution_index] of a discrepancy entry. *)
Definition execution_index (d : discrepancy) : nat :=
  match d with DError i _ => i | DHash i _ _ => i end.

(** The items of a dict value. *)
Definition dict_of (v : pyval) : list (pystr * pyval) :=
  match v with PDict d => d | _ => [] end.

(** ** canonicalize_v1.py: [verify_canonicalization]; compare_tampa.py:
    [validate_against_canon] *)

Section Verify.

Variable json_loads : pystr -> exc pyval.


(** canonicalize_v1.py: [verify_canonicalization]. [json.JSONDecodeError] and
    [UnicodeEncodeError] are [ValueError]s; any other exception propagates. *)
Definition verify_canonicalization (original canonical : pystr) : exc bool :=
  match (original_data <- json_loads original ;;
         canonical_data <- json_loads canonical ;;
         recanon_original <- canonicalize_json json_loads original_data ;;
         recanon_canonical <- canonicalize_json json_loads canonical_data ;;
         Ok (pystr_eqb recanon_original recanon_canonical)) with
  | Raise (ValueError _) | Raise UnicodeEncodeError => Ok false
  | r => r
  end.

(** compare_tampa.py: [validate_against_canon]; [except Exception] catches
    everything. *)
Definition validate_against_canon (result canon_spec : list (pystr * pyval)) : bool * pystr :=
  match (result_hash <- compute_canonical_hash json_loads
                          (dict_get result (lit "outputs") (PDict [])) ;;
         canon_hash <- compute_canonical_hash json_loads
                         (dict_get canon_spec (lit "expected_output") (PDict [])) ;;
         Ok (result_hash, canon_hash)) with
  | Ok (result_hash, canon_hash) =>
      if pystr_eqb result_hash canon_hash
      then (true, lit "Output matches canonical specification")
      else (false, lit "Hash mismatch: " ++ result_hash ++ lit " != " ++ canon_hash)
  | Raise e => (false, lit "Validation error: " ++ exn_str e)
  end.
End Verify.

(** ** decision_composer.py *)

(** [d[k] = v] on a dict: the value of an existing key is replaced in place,
    a new key goes last. *)
Fixpoint dict_set (d : list (pystr * pyval)) (k : pystr) (v : pyval) : list (pystr * pyval) :=
  match d with
  | [] => [(k, v)]
  | (k', v') :: d' =>
      if list_eq_dec Z.eq_dec k k' then (k', v) :: d' else (k', v') :: dict_set d' k v
  end.

Module DecisionRecord.
Record t := {
  decision_type : pystr;
  proposal : pyval;
  rationale : pystr;
  author : pystr;
  metadata : list (pystr * pyval);
  timestamp : pystr;
  record_id : pystr }.

Section Record.
Variable json_loads : pystr -> exc pyval.

Definition generate_id (decision_type : pystr) (proposal : pyval) (timestamp author : pystr)
  : exc pystr :=
  h <- compute_canonical_hash json_loads
         (PDict [(lit "type", PStr decision_type); (lit "proposal", proposal);
                 (lit "timestamp", PStr timestamp); (lit "author", PStr author)]) ;;
  Ok (firstn 16 h).

(** [DecisionRecord(...)]; [now] is [datetime.utcnow().isoformat()]. *)
Definition make (now : pystr) (decision_type : pystr) (proposal : pyval) (rationale author : pystr)
    (metadata : option (list (pystr * pyval))) : exc t :=
  let metadata := match metadata with Some ((_ :: _) as m) => m | _ => [] end in
  let timestamp := now ++ lit "Z" in
  record_id <- generate_id decision_type proposal timestamp author ;;
  Ok {| decision_type := decision_type; proposal := proposal; rationale := rationale;
        author := author; metadata := metadata; timestamp := timestamp; record_id := record_id |}.

Definition to_dict (r : t) : pyval :=
  PDict [(lit "record_id", PStr (record_id r)); (lit "decision_type", PStr (decision_type r));
         (lit "timestamp", PStr (timestamp r)); (lit "author", PStr (author r));
         (lit "proposal", proposal r); (lit "rationale", PStr (rationale r));
         (lit "metadata", PDict (metadata r))].

Definition to_canonical_json (r : t) : exc pystr := canonicalize_json json_loads (to_dict r).

Definition prepare_for_signing (r : t) : exc pystr := to_canonical_json r.
End Record.

Definition set_metadata (r : t) (m : list (pystr * pyval)) : t :=
  {| decision_type := decision_type r; proposal := proposal r; rationale := rationale r;
     author := author r; metadata := m; timestamp := timestamp r; record_id := record_id r |}.
End DecisionRecord.

Module DecisionComposer.
Record t := {
  authority_config : list (pystr * pyval);
  pending_reviews : list DecisionRecord.t }.

Definition init (authority_config : option (list (pystr * pyval))) : t :=
  {| authority_config := match authority_config with Some ((_ :: _) as c) => c | _ => [] end;
     pending_reviews := [] |}.

Section Composer.
Variable json_loads : pystr -> exc pyval.

Definition compose_canon_proposal (now : pystr) (self : t) (current_canon proposed_change : pyval)
    (rationale author : pystr) : exc (DecisionRecord.t * t) :=
  current_canon_hash <- compute_canonical_hash json_loads current_canon ;;
  let proposal := PDict [(lit "current_canon_hash", PStr current_canon_hash);
                         (lit "proposed_change", proposed_change);
                         (lit "change_type", PStr (lit "canon_update"))] in
  record <- DecisionRecord.make json_loads now (lit "canon_proposal") proposal rationale author
              (Some [(lit "status", PStr (lit "pending_review"))]) ;;
  Ok (record, {| authority_config := authority_config self;
                 pending_reviews := pending_reviews self ++ [record] |}).

Definition compose_acceptance_decision (now : pystr) (job_result policy : list (pystr * pyval))
    (author : pystr) : exc DecisionRecord.t :=
  let job_id := dict_get job_result (lit "job_id") PNone in
  result_hash <- compute_canonical_hash json_loads (PDict job_result) ;;
  let proposal := PDict [(lit "job_id", job_id); (lit "result_hash", PStr result_hash);
                         (lit "acceptance_status", PStr (lit "accepted"));
                         (lit "policy_version", dict_get policy (lit "version") (PStr (lit "v1")))] in
  DecisionRecord.make json_loads now (lit "acceptance") proposal
    (lit "Result meets acceptance criteria") author (Some [(lit "policy", PDict policy)]).
End Composer.

(** [r.metadata.get("status") == "pending_review"] *)
Definition is_pending (r : DecisionRecord.t) : bool :=
  match dict_get (DecisionRecord.metadata r) (lit "status") PNone with
  | PStr s => pystr_eqb s (lit "pending_review")
  | _ => false
  end.

Definition get_pending_reviews (self : t) : list pyval :=
  map DecisionRecord.to_dict (filter is_pending (pending_reviews self)).

(** The loop of [approve_review] and [reject_review]: the first record with
    the id is updated, and the loop stops. *)
Fixpoint update_first (record_id : pystr) (f : DecisionRecord.t -> DecisionRecord.t)
    (rs : list DecisionRecord.t) : option (list DecisionRecord.t) :=
  match rs with
  | [] => None
  | r :: rs' =>
      if pystr_eqb (DecisionRecord.record_id r) record_id then Some (f r :: rs')
      else option_map (cons r) (update_first record_id f rs')
  end.

Definition review (record_id : pystr) (f : DecisionRecord.t -> DecisionRecord.t) (self : t)
  : bool * t :=
  match update_first record_id f (pending_reviews self) with
  | Some rs => (true, {| authority_config := authority_config self; pending_reviews := rs |})
  | None => (false, self)
  end.

Definition approve_review (now : pystr) (self : t) (record_id reviewer : pystr) : bool * t :=
  review record_id (fun r =>
    let m := DecisionRecord.metadata r in
    let m := dict_set m (lit "status") (PStr (lit "approved")) in
    let m := dict_set m (lit "reviewer") (PStr reviewer) in
    let m := dict_set m (lit "review_timestamp") (PStr (now ++ lit "Z")) in
    DecisionRecord.set_metadata r m) self.

Definition reject_review (now : pystr) (self : t) (record_id reviewer reason : pystr) : bool * t :=
  review record_id (fun r =>
    let m := DecisionRecord.metadata r in
    let m := dict_set m (lit "status") (PStr (lit "rejected")) in
    let m := dict_set m (lit "reviewer") (PStr reviewer) in
    let m := dict_set m (lit "rejection_reason") (PStr reason) in
    let m := dict_set m (lit "review_timestamp") (PStr (now ++ lit "Z")) in
    DecisionRecord.set_metadata r m) self.
End DecisionComposer.

(** ** Notions used by the properties below *)

(** [p] is not after [q] in key order. *)
Definition key_le {A} (p q : pystr * A) : Prop := str_ltb (fst q) (fst p) = false.

(** A UTF-16 surrogate code point, which UTF-8 cannot encode. *)
Definition surrogate (c : Z) : Prop := 0xD800 <= c <= 0xDFFF.

(** A lowercase hexadecimal digit, as [hexdigest] writes them. *)
Definition hex_lower (c : Z) : Prop := 48 <= c <= 57 \/ 97 <= c <= 102.

(** The index carried by a span error. *)
Definition span_error_idx (e : verr) : option Z :=
  match e with
  | span_invalid_type i | span_invalid_range i _ | span_out_of_bounds i _ _ _
  | span_text_mismatch i _ _ | span_drhash_mismatch i _ _ => Some i
  | _ => None
  end.

(** A [json.loads] of two texts decoding to the same dict in two orders. *)
(** [json.loads(s)] raises only ValueError, or returns a value nested at
    most [max_nesting] deep. *)
Definition loads_within (json_loads : pystr -> exc pyval) (s : pystr) : Prop :=
  match json_loads s with
  | Raise e => exists m, e = ValueError m
  | Ok v => (depth v <= max_nesting)%nat
  end.

Definition dict_ab_loads (s : pystr) : exc pyval :=
  if pystr_eqb s (lit "A") then Ok (PDict [(lit "a", PInt 1); (lit "b", PInt 2)])
  else Ok (PDict [(lit "b", PInt 2); (lit "a", PInt 1)]).

(** A validated span, in the shape of [span_ex]. *)
Definition span_dict (text : string) (start end_ : Z) : Span.t :=
  {| Span.text := lit text; Span.start := start; Span.end_ := end_; Span.context := doc_text;
     Span.source_url := None; Span.main_content_match := true; Span.drhash := doc_drhash |}.

(** A canonical text other than [doc_text], and its hash. *)
Definition other_text : pystr := lit "Another document.".
Definition other_drhash : pystr :=
  Eval vm_compute in match sha256_hex other_text with Ok h => h | Raise _ => [] end.

(** * Properties *)

(** ** Examples of the library functions *)

Example sha256_abc :
  sha256_hex (lit "abc") =
  Ok (lit "ba7816bf8f01cfea414140de5dae2223b00361a396177a9cb410ff61f20015ad").
Proof. vm_compute. reflexivity. Qed.

Example sha256_empty :
  sha256_hex [] =
  Ok (lit "e3b0c44298fc1c149afbf4c8996fb92427ae41e4649b934ca495991b7852b855").
Proof. vm_compute. reflexivity. Qed.

Example repr_1 : float_repr 1.0 = lit "1.0". Proof. vm_compute. reflexivity. Qed.
Example repr_01 : float_repr 0.1 = lit "0.1". Proof. vm_compute. reflexivity. Qed.
Example repr_sum : float_repr (0.1 + 0.2)%float = lit "0.30000000000000004".
Proof. vm_compute. reflexivity. Qed.
Example repr_1e16 : float_repr 1e16 = lit "1e+16". Proof. vm_compute. reflexivity. Qed.
Example repr_1e15 : float_repr 1e15 = lit "1000000000000000.0".
Proof. vm_compute. reflexivity. Qed.
Example repr_1em5 : float_repr 1e-5 = lit "1e-05". Proof. vm_compute. reflexivity. Qed.
Example repr_1em4 : float_repr 1e-4 = lit "0.0001". Proof. vm_compute. reflexivity. Qed.
Example repr_min : float_repr 5e-324 = lit "5e-324". Proof. vm_compute. reflexivity. Qed.
Example repr_max : float_repr 1.7976931348623157e308 = lit "1.7976931348623157e+308".
Proof. vm_compute. reflexivity. Qed.
Example repr_neg : float_repr (-2.5)%float = lit "-2.5". Proof. vm_compute. reflexivity. Qed.
Example repr_big : float_repr 123456789.0 = lit "123456789.0". Proof. vm_compute. reflexivity. Qed.
Example repr_2p60 : float_repr 1152921504606846976.0 = lit "1.152921504606847e+18".
Proof. vm_compute. reflexivity. Qed.

Example round_9005 : py_round 0.9005 3 = 0.9%float. Proof. vm_compute. reflexivity. Qed.
Example round_2675 : py_round 2.675 2 = 2.67%float. Proof. vm_compute. reflexivity. Qed.
Example round_0625 : py_round 0.0625 3 = 0.062%float. Proof. vm_compute. reflexivity. Qed.
Example round_0125 : py_round 0.125 2 = 0.12%float. Proof. vm_compute. reflexivity. Qed.
Example round_neg : py_round (-0.0004)%float 3 = neg_zero. Proof. vm_compute. reflexivity. Qed.

Example canon_za :
  forall loads,
  canonicalize_json loads (PDict [(lit "z", PInt 1); (lit "a", PInt 2)]) =
  Ok (jlit "{'a':2,'z':1}").
Proof. intros. vm_compute. reflexivity. Qed.

Example compare_42_43 :
  forall loads, length (discrepancies (compare loads [result_ex 42; result_ex 43])) = 2%nat.
Proof. intros. vm_compute. reflexivity. Qed.

(** ** Properties of the comparator *)

Section CompareProofs.

Variable json_loads : pystr -> exc pyval.

Local Abbreviation hashed := (hashed json_loads).
Local Abbreviation hash_errors := (hash_errors json_loads).

Lemma fold_hash_step : forall l H D,
  fold_left (hash_step json_loads) l (H, D) = (H ++ hashed l, D ++ hash_errors l).
Proof.
  induction l as [|[i ex] l IH]; intros H D; simpl.
  - now rewrite !app_nil_r.
  - destruct (compute_canonical_hash json_loads (get_outputs ex)) eqn:E;
      rewrite IH; simpl; now rewrite <- !app_assoc.
Qed.

Lemma in_enumerate_from : forall (l : list execution) k i x,
  nth_error l i = Some x -> In (k + i, x)%nat (combine (seq k (length l)) l).
Proof.
  induction l as [|a l IH]; intros k i x H; destruct i; simpl in *; try discriminate.
  - inversion H; subst. left. f_equal. lia.
  - right. replace (k + S i)%nat with (S k + i)%nat by lia. now apply IH.
Qed.

Lemma in_enumerate : forall (l : list execution) i x,
  nth_error l i = Some x -> In (i, x) (enumerate l).
Proof. intros. apply (in_enumerate_from l 0 i x). assumption. Qed.

Lemma in_enumerate_inv : forall (l : list execution) i x,
  In (i, x) (enumerate l) -> In x l.
Proof. unfold enumerate. intros l i x H. now apply in_combine_r in H. Qed.

Lemma n_unique_one : forall hs : list (nat * pystr * pyval), hs <> [] ->
  (n_unique hs = 1%nat <->
   forall a b, In a hs -> In b hs -> snd (fst a) = snd (fst b)).
Proof.
  intros hs Hne. unfold n_unique.
  set (key := fun h : nat * pystr * pyval => snd (fst h)).
  assert (Hin : forall a, In a hs -> In (key a) (nodup (list_eq_dec Z.eq_dec) (map key hs))).
  { intros a Ha. apply nodup_In. now apply in_map. }
  split.
  - intros Hl a b Ha Hb.
    destruct (nodup (list_eq_dec Z.eq_dec) (map key hs)) as [|z [|z' r]] eqn:E;
      simpl in Hl; try discriminate.
    pose proof (Hin a Ha) as A. pose proof (Hin b Hb) as B.
    try rewrite E in A, B. destruct A as [A|[]]; destruct B as [B|[]]. subst key. simpl in *. congruence.
  - intros Hall. destruct hs as [|h0 r]; [congruence|].
    assert (Hincl : incl (nodup (list_eq_dec Z.eq_dec) (map key (h0 :: r))) [key h0]).
    { intros y Hy. apply nodup_In, in_map_iff in Hy. destruct Hy as [a [<- Ha]].
      left. symmetry. apply Hall; simpl; auto. }
    pose proof (NoDup_incl_length (NoDup_nodup _ _) Hincl) as Hle.
    pose proof (Hin h0 (or_introl eq_refl)) as H0.
    revert Hle H0. generalize (nodup (list_eq_dec Z.eq_dec) (map key (h0 :: r))).
    intros [|y ys] Hle H0; simpl in *; [contradiction|lia].
Qed.

(** The comparator result in terms of [hashed] and [hash_errors], for two
    or more executions. *)
Lemma compare_many : forall execs, (2 <= length execs)%nat ->
  compare json_loads execs =
  match hashed (enumerate execs) with
  | [] => {| consensus_reached := false; canonical_output := None;
             discrepancies := hash_errors (enumerate execs) |}
  | h0 :: _ =>
      if Nat.eqb (n_unique (hashed (enumerate execs))) 1 then
        {| consensus_reached := true; canonical_output := Some (hash_output h0);
           discrepancies := hash_errors (enumerate execs) |}
      else
        {| consensus_reached := false; canonical_output := None;
           discrepancies := hash_errors (enumerate execs) ++
             map (fun h => let '(i, hv, o) := h in DHash i hv o) (hashed (enumerate execs)) |}
  end.
Proof.
  intros execs Hlen. destruct execs as [|a [|b rest]]; simpl in Hlen; try lia.
  unfold compare. rewrite fold_hash_step. reflexivity.
Qed.

End CompareProofs.

Lemma in_enumerate_from_nth : forall (l : list execution) k i x,
  In (i, x) (combine (seq k (length l)) l) -> (k <= i)%nat /\ nth_error l (i - k) = Some x.
Proof.
  induction l as [|a l IH]; intros k i x H; simpl in H; [contradiction|].
  destruct H as [H|H].
  - inversion H; subst. split; [lia|]. now rewrite Nat.sub_diag.
  - apply IH in H. destruct H as [Hle Hn]. split; [lia|].
    replace (i - k)%nat with (S (i - S k)) by lia. exact Hn.
Qed.

Lemma in_enumerate_nth : forall (l : list execution) i x,
  In (i, x) (enumerate l) -> nth_error l i = Some x.
Proof.
  intros l i x H. apply (in_enumerate_from_nth l 0) in H.
  rewrite Nat.sub_0_r in H. tauto.
Qed.

Lemma in_enumerate_ex : forall (l : list execution) x,
  In x l -> exists i, In (i, x) (enumerate l).
Proof.
  intros l x H. apply In_nth_error in H. destruct H as [i Hi].
  exists i. now apply in_enumerate.
Qed.

Lemma hashed_all_ok : forall loads (hv : execution -> pystr) l,
  (forall ie, In ie l -> compute_canonical_hash loads (get_outputs (snd ie)) = Ok (hv (snd ie))) ->
  hashed loads l = map (fun ie => (fst ie, hv (snd ie), get_outputs (snd ie))) l /\
  hash_errors loads l = [].
Proof.
  intros loads hv l. induction l as [|[i ex] l IH]; intros Hok; [split; reflexivity|].
  pose proof (Hok (i, ex) (or_introl eq_refl)) as H1. simpl in H1.
  destruct IH as [IH1 IH2]; [intros ie Hie; apply Hok; now right|].
  unfold hashed, hash_errors in *. cbn [flat_map map fst snd]. rewrite H1.
  cbn [app]. rewrite IH1, IH2. split; reflexivity.
Qed.

Lemma in_hashed : forall loads l i h o,
  In (i, h, o) (hashed loads l) <->
  exists ex, In (i, ex) l /\ compute_canonical_hash loads (get_outputs ex) = Ok h /\
             o = get_outputs ex.
Proof.
  intros loads l i h o. unfold hashed. rewrite in_flat_map. split.
  - intros [[j ex] [Hin Hm]]. simpl in Hm.
    destruct (compute_canonical_hash loads (get_outputs ex)) eqn:E; [|contradiction].
    destruct Hm as [Hm|[]]. inversion Hm; subst. eauto.
  - intros [ex [Hin [Hh Ho]]]. exists (i, ex). split; [assumption|]. simpl.
    rewrite Hh. left. now subst.
Qed.

Lemma in_hash_errors : forall loads l i ex e,
  In (i, ex) l -> compute_canonical_hash loads (get_outputs ex) = Raise e ->
  In (DError i (lit "Failed to canonicalize: " ++ exn_str e)) (hash_errors loads l).
Proof.
  intros loads l i ex e Hin He. unfold hash_errors. apply in_flat_map.
  exists (i, ex). split; [assumption|]. simpl. rewrite He. now left.
Qed.

Lemma compare_errors_prefix : forall loads execs, (2 <= length execs)%nat ->
  exists rest, discrepancies (compare loads execs) = hash_errors loads (enumerate execs) ++ rest.
Proof.
  intros loads execs Hlen. rewrite compare_many by assumption.
  destruct (hashed loads (enumerate execs)) as [|h0 t];
    [|destruct (Nat.eqb _ 1)]; simpl; eauto;
    exists []; now rewrite app_nil_r.
Qed.

(** C7: zero executions give no consensus, no canonical output and no
    discrepancies; one execution gives consensus on its outputs and no
    discrepancies. *)
Theorem compare_zero_or_one : forall loads (ex : execution),
  compare loads [] =
    {| consensus_reached := false; canonical_output := None; discrepancies := [] |} /\
  compare loads [ex] =
    {| consensus_reached := true; canonical_output := Some (get_outputs ex);
       discrepancies := [] |}.
Proof. intros. split; reflexivity. Qed.

(** C4: with two or more executions that all hash, consensus is unanimity:
    identical hashes give consensus on the first output; any two different
    hashes give no consensus and one discrepancy entry (index, hash, output)
    per execution. Two executions with outputs [{"result":42}] and
    [{"result":43}] give no consensus and exactly two entries. *)
Theorem compare_unanimity (loads : pystr -> exc pyval) (execs : list execution)
    (hv : execution -> pystr)
    (Hlen : (2 <= length execs)%nat)
    (Hok : forall ex, In ex execs ->
           compute_canonical_hash loads (get_outputs ex) = Ok (hv ex)) :
  ((forall x y, In x execs -> In y execs -> hv x = hv y) ->
     consensus_reached (compare loads execs) = true /\
     canonical_output (compare loads execs) = Some (get_outputs (hd [] execs)) /\
     discrepancies (compare loads execs) = []) /\
  ((exists x y, In x execs /\ In y execs /\ hv x <> hv y) ->
     consensus_reached (compare loads execs) = false /\
     canonical_output (compare loads execs) = None /\
     discrepancies (compare loads execs) =
       map (fun ie => DHash (fst ie) (hv (snd ie)) (get_outputs (snd ie))) (enumerate execs)) /\
  (consensus_reached (compare loads [result_ex 42; result_ex 43]) = false /\
   length (discrepancies (compare loads [result_ex 42; result_ex 43])) = 2%nat).
Proof.
  destruct (hashed_all_ok loads hv (enumerate execs)) as [Hh He].
  { intros [i ex] Hin. apply Hok. now apply in_enumerate_inv in Hin. }
  assert (Hne : hashed loads (enumerate execs) <> []).
  { rewrite Hh. destruct execs; simpl in *; [lia|discriminate]. }
  assert (Hkeys : (forall x y, In x execs -> In y execs -> hv x = hv y) <->
                  n_unique (hashed loads (enumerate execs)) = 1%nat).
  { rewrite (n_unique_one _ Hne), Hh. split.
    - intros Hall a b Ha Hb. apply in_map_iff in Ha, Hb.
      destruct Ha as [[i x] [<- Hx]]. destruct Hb as [[j y] [<- Hy]]. simpl.
      apply Hall; eapply in_enumerate_inv; eassumption.
    - intros Hall x y Hx Hy.
      destruct (in_enumerate_ex _ _ Hx) as [i Hi]. destruct (in_enumerate_ex _ _ Hy) as [j Hj].
      exact (Hall _ _ (in_map (fun ie => (fst ie, hv (snd ie), get_outputs (snd ie))) _ _ Hi)
                      (in_map (fun ie => (fst ie, hv (snd ie), get_outputs (snd ie))) _ _ Hj)). }
  rewrite compare_many by assumption. rewrite He.
  split; [|split].
  - intros Hall. apply (proj1 Hkeys) in Hall.
    destruct (hashed loads (enumerate execs)) as [|h0 t] eqn:E; [congruence|].
    rewrite Hall. simpl. repeat split.
    destruct execs as [|a r]; [simpl in Hlen; lia|].
    simpl in Hh. inversion Hh. reflexivity.
  - intros [x [y [Hx [Hy Hxy]]]].
    assert (Hn : n_unique (hashed loads (enumerate execs)) <> 1%nat).
    { intros Hn. apply Hxy. exact (proj2 Hkeys Hn x y Hx Hy). }
    destruct (hashed loads (enumerate execs)) as [|h0 t] eqn:E; [congruence|].
    apply Nat.eqb_neq in Hn. rewrite Hn.
    cbn [consensus_reached canonical_output discrepancies app]. repeat split.
    rewrite Hh, map_map. apply map_ext. intros [i ex]. reflexivity.
  - vm_compute. split; reflexivity.
Qed.

(** C6: with two or more executions of which some fail to hash, every
    failing execution gets an error entry with its index, it takes no part in
    the hash comparison, and consensus holds exactly when the executions that
    hash are non-empty and have one hash, the canonical output being the
    output of the first of them. *)
Theorem compare_partial_failure (loads : pystr -> exc pyval) (execs : list execution)
    (Hlen : (2 <= length execs)%nat)
    (Hfail : exists ex e, In ex execs /\ compute_canonical_hash loads (get_outputs ex) = Raise e) :
  (forall i ex e, nth_error execs i = Some ex ->
     compute_canonical_hash loads (get_outputs ex) = Raise e ->
     In (DError i (lit "Failed to canonicalize: " ++ exn_str e))
        (discrepancies (compare loads execs)) /\
     forall h o, ~ In (i, h, o) (hashed loads (enumerate execs))) /\
  (consensus_reached (compare loads execs) = true <->
     hashed loads (enumerate execs) <> [] /\
     forall a b, In a (hashed loads (enumerate execs)) ->
                 In b (hashed loads (enumerate execs)) -> snd (fst a) = snd (fst b)) /\
  (consensus_reached (compare loads execs) = true ->
     canonical_output (compare loads execs) =
       option_map hash_output (hd_error (hashed loads (enumerate execs)))).
Proof.
  clear Hfail. split; [|split].
  - intros i ex e Hi He. split.
    + destruct (compare_errors_prefix loads execs Hlen) as [rest ->].
      apply in_or_app. left. eapply in_hash_errors; [|eassumption]. now apply in_enumerate.
    + intros h o Hin. apply in_hashed in Hin. destruct Hin as [ex' [Hin' [Hh' _]]].
      apply in_enumerate_nth in Hin'. congruence.
  - rewrite compare_many by assumption.
    destruct (hashed loads (enumerate execs)) as [|h0 t] eqn:E; simpl.
    + split; [discriminate|]. intros [H _]. congruence.
    + rewrite <- (n_unique_one (h0 :: t)) by discriminate.
      destruct (Nat.eqb (n_unique (h0 :: t)) 1) eqn:En; simpl.
      * apply Nat.eqb_eq in En. split; intros; [split; [discriminate|assumption]|reflexivity].
      * apply Nat.eqb_neq in En. split; [discriminate|]. intros [_ H]. contradiction.
  - rewrite compare_many by assumption.
    destruct (hashed loads (enumerate execs)) as [|h0 t] eqn:E; simpl; [discriminate|].
    destruct (Nat.eqb _ 1); simpl; congruence.
Qed.

(** ** Order on [str] and the item sort *)

Lemma str_ltb_irrefl : forall a, str_ltb a a = false.
Proof. induction a as [|x a IH]; simpl; [reflexivity|]. rewrite Z.ltb_irrefl. exact IH. Qed.

Lemma str_ltb_trans : forall a b c,
  str_ltb a b = true -> str_ltb b c = true -> str_ltb a c = true.
Proof.
  induction a as [|x a IH]; intros [|y b] [|z c]; simpl; try discriminate; auto.
  destruct (x <? y) eqn:Exy; destruct (y <? x) eqn:Eyx;
  destruct (y <? z) eqn:Eyz; destruct (z <? y) eqn:Ezy;
  destruct (x <? z) eqn:Exz; destruct (z <? x) eqn:Ezx;
  rewrite ?Z.ltb_lt, ?Z.ltb_ge in *; try lia; try discriminate; auto.
  intros H1 H2. assert (x = y) by lia. assert (y = z) by lia. subst. eauto.
Qed.

Lemma str_ltb_total : forall a b, a <> b -> str_ltb a b = true \/ str_ltb b a = true.
Proof.
  induction a as [|x a IH]; intros [|y b] Hne; simpl; auto; try congruence.
  destruct (x <? y) eqn:Exy; destruct (y <? x) eqn:Eyx; rewrite ?Z.ltb_lt, ?Z.ltb_ge in *;
    auto; try lia.
  assert (x = y) by lia. subst. apply IH. congruence.
Qed.

Section ItemSort.

Context {A : Type}.

Local Abbreviation key_lt := (@key_lt A).

Lemma insert_item_perm : forall (it : pystr * A) l, Permutation (insert_item it l) (it :: l).
Proof.
  intros it l. induction l as [|it' l IH]; simpl; [auto|].
  destruct (str_ltb (fst it') (fst it)); [|auto].
  eapply perm_trans; [apply perm_skip, IH|apply perm_swap].
Qed.

Lemma sort_items_perm : forall l : list (pystr * A), Permutation (sort_items l) l.
Proof.
  induction l as [|it l IH]; simpl; [auto|].
  eapply perm_trans; [apply insert_item_perm|]. auto.
Qed.

Lemma insert_item_sorted : forall (it : pystr * A) l,
  Sorted key_lt l -> ~ In (fst it) (map fst l) -> Sorted key_lt (insert_item it l).
Proof.
  intros it l. induction l as [|it' l IH]; intros Hs Hn; simpl; [auto|].
  destruct (str_ltb (fst it') (fst it)) eqn:E.
  - apply Sorted_inv in Hs. destruct Hs as [Hs Hh].
    constructor; [apply IH; [assumption|simpl in Hn; tauto]|].
    destruct l as [|it'' l]; simpl; [constructor; exact E|].
    destruct (str_ltb (fst it'') (fst it)); constructor; [|exact E].
    now inversion Hh.
  - constructor; [assumption|]. constructor. unfold key_lt.
    destruct (str_ltb_total (fst it) (fst it')) as [H|H]; [|congruence|congruence].
    intros Heq. apply Hn. simpl. left. congruence.
Qed.

Lemma sort_items_sorted : forall l : list (pystr * A),
  NoDup (map fst l) -> Sorted key_lt (sort_items l).
Proof.
  induction l as [|it l IH]; intros Hnd; simpl; [constructor|].
  inversion Hnd as [|x y Hn Hnd']; subst.
  apply insert_item_sorted; [now apply IH|].
  intros Hin. apply Hn. apply in_map_iff in Hin. destruct Hin as [p [<- Hp]].
  apply in_map. apply (Permutation_in _ (sort_items_perm l)). exact Hp.
Qed.

Lemma key_lt_trans : forall p q r, key_lt p q -> key_lt q r -> key_lt p r.
Proof. unfold key_lt. intros. eapply str_ltb_trans; eassumption. Qed.

Lemma strongly_sorted_perm_eq : forall l1 l2 : list (pystr * A),
  StronglySorted key_lt l1 -> StronglySorted key_lt l2 -> Permutation l1 l2 -> l1 = l2.
Proof.
  induction l1 as [|a l1 IH]; intros l2 H1 H2 Hp.
  - symmetry. now apply Permutation_nil.
  - destruct l2 as [|b l2]; [apply Permutation_sym, Permutation_nil in Hp; discriminate|].
    apply StronglySorted_inv in H1, H2. destruct H1 as [H1 F1]. destruct H2 as [H2 F2].
    assert (a = b).
    { destruct (Permutation_in a Hp (or_introl eq_refl)) as [|Ha]; [congruence|].
      exfalso. rewrite Forall_forall in F1, F2.
      assert (Hb : In b (a :: l1)) by (apply (Permutation_in b (Permutation_sym Hp)); now left).
      destruct Hb as [Hb|Hb].
      - subst. specialize (F2 _ Ha). unfold key_lt in F2. rewrite str_ltb_irrefl in F2.
        discriminate.
      - pose proof (key_lt_trans _ _ _ (F1 _ Hb) (F2 _ Ha)) as Haa.
        unfold key_lt in Haa. rewrite str_ltb_irrefl in Haa. discriminate. }
    subst. f_equal. apply IH; [assumption|assumption|].
    eapply Permutation_cons_inv. exact Hp.
Qed.

(** Sorting items with distinct keys does not depend on their order. *)
Lemma sort_items_perm_eq : forall l1 l2 : list (pystr * A),
  NoDup (map fst l1) -> Permutation l1 l2 -> sort_items l1 = sort_items l2.
Proof.
  intros l1 l2 Hnd Hp.
  assert (Hnd2 : NoDup (map fst l2)) by (eapply Permutation_NoDup; [apply Permutation_map, Hp|exact Hnd]).
  apply strongly_sorted_perm_eq.
  - apply Sorted_StronglySorted; [exact key_lt_trans|]. now apply sort_items_sorted.
  - apply Sorted_StronglySorted; [exact key_lt_trans|]. now apply sort_items_sorted.
  - eapply perm_trans; [apply sort_items_perm|].
    eapply perm_trans; [exact Hp|]. apply Permutation_sym, sort_items_perm.
Qed.

End ItemSort.

(** ** Code point order and UTF-8 byte order *)

Lemma decisive_app : forall p q r1 r2, decisive p q = true ->
  str_ltb (p ++ r1) (q ++ r2) = true /\ str_ltb (q ++ r2) (p ++ r1) = false.
Proof.
  induction p as [|u p IH]; intros [|v q] r1 r2 H; simpl in H; try discriminate.
  simpl. apply orb_true_iff in H. destruct H as [H|H].
  - apply Z.ltb_lt in H. rewrite (proj2 (Z.ltb_lt u v) H), (proj2 (Z.ltb_ge v u)) by lia.
    split; reflexivity.
  - apply andb_true_iff in H. destruct H as [H1 H2]. apply Z.eqb_eq in H1. subst.
    rewrite Z.ltb_irrefl. now apply IH.
Qed.

Lemma str_ltb_app_same : forall p r1 r2, str_ltb (p ++ r1) (p ++ r2) = str_ltb r1 r2.
Proof. induction p as [|u p IH]; intros; simpl; [reflexivity|]. now rewrite Z.ltb_irrefl. Qed.

Lemma shiftr_div : forall x n, 0 <= n -> Z.shiftr x n = x / 2 ^ n.
Proof. intros. now apply Z.shiftr_div_pow2. Qed.

Lemma land63 : forall x, Z.land x 0x3F = x mod 64.
Proof. intros. change 0x3F with (Z.ones 6). now rewrite Z.land_ones. Qed.

Ltac utf8_arith :=
  repeat match goal with
  | H : (_ <? _) = true |- _ => apply Z.ltb_lt in H
  | H : (_ <? _) = false |- _ => apply Z.ltb_ge in H
  | H : (_ <=? _) = true |- _ => apply Z.leb_le in H
  | H : (_ <=? _) = false |- _ => apply Z.leb_gt in H
  end.

Lemma utf8_char_ok : forall c, scalar_value c ->
  exists b0 bs, utf8_char c = Ok (b0 :: bs).
Proof.
  intros c [Hr Hs]. unfold utf8_char.
  destruct (c <? 0x80); [eauto|]. destruct (c <? 0x800); [eauto|].
  destruct ((0xD800 <=? c) && (c <=? 0xDFFF)) eqn:E.
  - apply andb_true_iff in E. destruct E as [E1 E2]. utf8_arith. lia.
  - destruct (c <? 0x10000); eauto.
Qed.

(** Below [x < y], the encoding of [x] is below that of [y] at a position
    both have. *)
Lemma Ok_inj : forall (A : Type) (a b : A), Ok a = Ok b -> a = b.
Proof. intros A a b H. now inversion H. Qed.

Lemma decisive_le : forall u v p q, u <= v -> (u = v -> decisive p q = true) ->
  decisive (u :: p) (v :: q) = true.
Proof.
  intros u v p q Hle H. cbn [decisive]. destruct (Z.lt_ge_cases u v) as [Hl|Hg].
  - now rewrite (proj2 (Z.ltb_lt u v) Hl).
  - assert (u = v) as <- by lia. rewrite Z.ltb_irrefl, Z.eqb_refl. now apply H.
Qed.

Lemma decisive_last : forall u v, u < v -> decisive [u] [v] = true.
Proof. intros. cbn [decisive]. now rewrite (proj2 (Z.ltb_lt u v) H). Qed.

Lemma utf8_char_1 : forall c, c < 0x80 -> utf8_char c = Ok [c].
Proof. intros. unfold utf8_char. now rewrite (proj2 (Z.ltb_lt c _) H). Qed.

Lemma utf8_char_2 : forall c, 0x80 <= c < 0x800 ->
  utf8_char c = Ok [192 + c / 64; 128 + c mod 64].
Proof.
  intros c H. unfold utf8_char.
  rewrite (proj2 (Z.ltb_ge c 0x80)), (proj2 (Z.ltb_lt c 0x800)) by lia.
  now rewrite land63, shiftr_div by lia.
Qed.

Lemma utf8_char_3 : forall c, 0x800 <= c < 0x10000 -> ~ (0xD800 <= c <= 0xDFFF) ->
  utf8_char c = Ok [224 + c / 4096; 128 + (c / 64) mod 64; 128 + c mod 64].
Proof.
  intros c H Hs. unfold utf8_char.
  rewrite (proj2 (Z.ltb_ge c 0x80)), (proj2 (Z.ltb_ge c 0x800)),
    (proj2 (Z.ltb_lt c 0x10000)) by lia.
  replace ((0xD800 <=? c) && (c <=? 0xDFFF)) with false.
  - now rewrite !land63, !shiftr_div by lia.
  - symmetry. apply andb_false_iff. destruct (Z.le_gt_cases 0xD800 c).
    + right. apply Z.leb_gt. lia.
    + left. apply Z.leb_gt. lia.
Qed.

Lemma utf8_char_4 : forall c, 0x10000 <= c ->
  utf8_char c = Ok [240 + c / 262144; 128 + (c / 4096) mod 64;
                    128 + (c / 64) mod 64; 128 + c mod 64].
Proof.
  intros c H. unfold utf8_char.
  rewrite (proj2 (Z.ltb_ge c 0x80)), (proj2 (Z.ltb_ge c 0x800)),
    (proj2 (Z.ltb_ge c 0x10000)) by lia.
  replace ((0xD800 <=? c) && (c <=? 0xDFFF)) with false.
  - now rewrite !land63, !shiftr_div by lia.
  - symmetry. apply andb_false_iff. right. apply Z.leb_gt. lia.
Qed.

Ltac utf8_class c Hc Hcs :=
  let H := fresh in
  destruct (Z.lt_ge_cases c 0x80) as [H|H];
  [rewrite (utf8_char_1 c H)
  |destruct (Z.lt_ge_cases c 0x800) as [?|?];
   [rewrite (utf8_char_2 c ltac:(lia))
   |destruct (Z.lt_ge_cases c 0x10000) as [?|?];
    [rewrite (utf8_char_3 c ltac:(lia) Hcs)
    |rewrite (utf8_char_4 c ltac:(lia))]]].

Ltac decisive_steps :=
  repeat (apply decisive_le; [Z.div_mod_to_equations; lia|intro]);
  exfalso; Z.div_mod_to_equations; lia.

Lemma utf8_char_decisive : forall x y ex ey,
  scalar_value x -> scalar_value y -> x < y ->
  utf8_char x = Ok ex -> utf8_char y = Ok ey -> decisive ex ey = true.
Proof.
  intros x y ex ey [Hx Hxs] [Hy Hys] Hlt Ex Ey.
  revert Ex Ey. utf8_class x Hx Hxs; utf8_class y Hy Hys;
  intros Ex Ey; apply Ok_inj in Ex, Ey; subst ex ey;
  try (exfalso; lia); decisive_steps.
Qed.

Lemma utf8_encode_cons : forall c s,
  utf8_encode (c :: s) = (b <- utf8_char c ;; bs <- utf8_encode s ;; Ok (b ++ bs)).
Proof. reflexivity. Qed.

Lemma utf8_encode_ok : forall s, Forall scalar_value s -> exists e, utf8_encode s = Ok e.
Proof.
  induction s as [|c s IH]; intros Hs; [now exists []|].
  apply Forall_cons_iff in Hs. destruct Hs as [Hc Hs].
  destruct (utf8_char_ok c Hc) as [b0 [bs Hb]]. destruct (IH Hs) as [e He].
  exists ((b0 :: bs) ++ e). rewrite utf8_encode_cons, Hb, He. reflexivity.
Qed.

(** On strings of Unicode scalar values, code point order is UTF-8 byte order. *)
Lemma str_ltb_utf8 : forall a b ea eb,
  Forall scalar_value a -> Forall scalar_value b ->
  utf8_encode a = Ok ea -> utf8_encode b = Ok eb ->
  str_ltb a b = true -> str_ltb ea eb = true.
Proof.
  induction a as [|x a IH]; intros [|y b] ea eb Ha Hb Ea Eb H; simpl in H; try discriminate.
  - apply Ok_inj in Ea. subst ea.
    apply Forall_cons_iff in Hb. destruct Hb as [Hy Hb].
    destruct (utf8_char_ok y Hy) as [b0 [bs Hc]]. destruct (utf8_encode_ok b Hb) as [r Hr].
    rewrite utf8_encode_cons, Hc, Hr in Eb. apply Ok_inj in Eb. subst eb. reflexivity.
  - apply Forall_cons_iff in Ha, Hb. destruct Ha as [Hx Ha]. destruct Hb as [Hy Hb].
    destruct (utf8_char_ok x Hx) as [x0 [xs Hcx]]. destruct (utf8_encode_ok a Ha) as [ra Hra].
    destruct (utf8_char_ok y Hy) as [y0 [ys Hcy]]. destruct (utf8_encode_ok b Hb) as [rb Hrb].
    rewrite utf8_encode_cons, Hcx, Hra in Ea. rewrite utf8_encode_cons, Hcy, Hrb in Eb.
    apply Ok_inj in Ea, Eb. subst ea eb.
    destruct (x <? y) eqn:Lxy.
    + apply Z.ltb_lt in Lxy.
      apply decisive_app, (utf8_char_decisive x y); auto; split; auto.
    + destruct (y <? x) eqn:Lyx; [discriminate|].
      apply Z.ltb_ge in Lxy, Lyx. assert (x = y) by lia. subst y.
      rewrite Hcx in Hcy. apply Ok_inj in Hcy. rewrite <- Hcy.
      rewrite str_ltb_app_same. eapply IH; eauto.
Qed.

Lemma sequence_items_keys {A} : forall (l : list (pystr * exc A)) l',
  sequence_items l = Ok l' -> map fst l' = map fst l.
Proof.
  induction l as [|[k m] l IH]; intros l' H; simpl in H.
  - apply Ok_inj in H. now subst.
  - destruct m as [a|e]; simpl in H; [|discriminate].
    destruct (sequence_items l) as [r|e] eqn:E; simpl in H; [|discriminate].
    apply Ok_inj in H. subst. simpl. f_equal. now apply IH.
Qed.

Lemma sort_items_keys {A} : forall l : list (pystr * A),
  Permutation (map fst (sort_items l)) (map fst l).
Proof. intros. apply Permutation_map, sort_items_perm. Qed.

Lemma sorted_keys {A} : forall l : list (pystr * A),
  NoDup (map fst l) -> StronglySorted (fun a b => str_ltb a b = true) (map fst (sort_items l)).
Proof.
  intros l Hnd. pose proof (Sorted_StronglySorted key_lt_trans (sort_items_sorted l Hnd)) as H.
  induction H as [|x l' _ IH HF]; simpl; constructor; [exact IH|].
  apply Forall_map. exact HF.
Qed.

Lemma StronglySorted_impl_in {A} (P : A -> Prop) (R R' : A -> A -> Prop) : forall l,
  Forall P l -> (forall a b, P a -> P b -> R a b -> R' a b) ->
  StronglySorted R l -> StronglySorted R' l.
Proof.
  intros l HP HR HS. induction HS as [|x l HS IH HF]; constructor.
  - apply IH. now inversion HP.
  - inversion HP as [|? ? Px Pl]; subst. rewrite Forall_forall in HF, Pl |- *.
    intros y Hy. apply HR; auto.
Qed.

Lemma str_ltb_utf8_ltb : forall a b, Forall scalar_value a -> Forall scalar_value b ->
  str_ltb a b = true -> utf8_ltb a b = true.
Proof.
  intros a b Ha Hb H. destruct (utf8_encode_ok a Ha) as [ea Ea].
  destruct (utf8_encode_ok b Hb) as [eb Eb]. unfold utf8_ltb. rewrite Ea, Eb.
  exact (str_ltb_utf8 a b ea eb Ha Hb Ea Eb H).
Qed.

Lemma canonicalize_value_dict_perm : forall kvs kvs',
  NoDup (map fst kvs) -> Permutation kvs kvs' ->
  canonicalize_value (PDict kvs) = canonicalize_value (PDict kvs').
Proof.
  intros kvs kvs' Hnd Hp. cbn [canonicalize_value].
  rewrite (sort_items_perm_eq _ (map (fun kv => (fst kv, canonicalize_value (snd kv))) kvs'));
    [reflexivity| |now apply Permutation_map].
  rewrite map_map. exact Hnd.
Qed.

Lemma canonicalize_json_dict_keys : forall loads kvs out,
  NoDup (map fst kvs) -> canonicalize_json loads (PDict kvs) = Ok out ->
  exists items,
    out = [123] ++ join [44] (map (fun kv => encode_basestring (fst kv) ++ [58] ++ snd kv) items)
            ++ [125] /\
    Permutation (map fst items) (map fst kvs) /\
    StronglySorted (fun a b => str_ltb a b = true) (map fst items).
Proof.
  intros loads kvs out Hnd H. unfold canonicalize_json in H. cbn [bind] in H.
  destruct (canonicalize_value (PDict kvs)) as [cd|e] eqn:C; cbn [bind] in H; [|discriminate].
  cbn [canonicalize_value] in C.
  destruct (sequence_items (sort_items (map (fun kv => (fst kv, canonicalize_value (snd kv))) kvs)))
    as [l|e] eqn:S1; cbn [bind] in C; [|discriminate].
  apply Ok_inj in C. subst cd. cbn [dumps] in H.
  destruct (sequence_items (sort_items (map (fun kv => (fst kv, dumps (snd kv))) l)))
    as [items|e] eqn:S2; cbn [bind] in H; [|discriminate].
  apply Ok_inj in H. exists items. split; [now symmetry|].
  apply sequence_items_keys in S1, S2.
  assert (P1 : Permutation (map fst l) (map fst kvs)).
  { rewrite S1. eapply perm_trans; [apply sort_items_keys|]. rewrite map_map. apply Permutation_refl. }
  assert (P2 : Permutation (map fst items) (map fst l)).
  { rewrite S2. eapply perm_trans; [apply sort_items_keys|]. rewrite map_map. apply Permutation_refl. }
  split; [exact (perm_trans P2 P1)|].
  unfold pystr in *. rewrite S2. apply sorted_keys. rewrite map_map. simpl.
  eapply Permutation_NoDup; [apply Permutation_sym, P1|exact Hnd].
Qed.

(** C8. Canonicalization is a function of its input (so two calls agree);
    for a dict with distinct keys, any reordering of its items gives the same
    canonical string and the same hash; the keys of the canonical string of a
    dict whose keys are Unicode strings come in ascending UTF-8 byte order;
    and {"z":1,"a":2} and {"a":2,"z":1} canonicalize and hash alike. *)
Theorem canonical_key_order : forall loads : pystr -> exc pyval,
  (forall v, canonicalize_json loads v = canonicalize_json loads v) /\
  (forall kvs kvs', NoDup (map fst kvs) -> Permutation kvs kvs' ->
     canonicalize_json loads (PDict kvs) = canonicalize_json loads (PDict kvs') /\
     compute_canonical_hash loads (PDict kvs) = compute_canonical_hash loads (PDict kvs')) /\
  (forall kvs out, NoDup (map fst kvs) ->
     Forall (fun kv => Forall scalar_value (fst kv)) kvs ->
     canonicalize_json loads (PDict kvs) = Ok out ->
     exists items,
       out = [123] ++ join [44] (map (fun kv => encode_basestring (fst kv) ++ [58] ++ snd kv) items)
               ++ [125] /\
       Permutation (map fst items) (map fst kvs) /\
       StronglySorted (fun a b => utf8_ltb a b = true) (map fst items)) /\
  (canonicalize_json loads (PDict [(lit "z", PInt 1); (lit "a", PInt 2)]) =
     canonicalize_json loads (PDict [(lit "a", PInt 2); (lit "z", PInt 1)]) /\
   compute_canonical_hash loads (PDict [(lit "z", PInt 1); (lit "a", PInt 2)]) =
     compute_canonical_hash loads (PDict [(lit "a", PInt 2); (lit "z", PInt 1)])).
Proof.
  intros loads. split; [reflexivity|]. split; [|split].
  - intros kvs kvs' Hnd Hp.
    assert (E : canonicalize_json loads (PDict kvs) = canonicalize_json loads (PDict kvs')).
    { unfold canonicalize_json. cbn [bind]. now rewrite (canonicalize_value_dict_perm kvs kvs'). }
    split; [exact E|]. unfold compute_canonical_hash. now rewrite E.
  - intros kvs out Hnd Hs H.
    destruct (canonicalize_json_dict_keys loads kvs out Hnd H) as [items [Ho [Hp Hss]]].
    exists items. split; [exact Ho|]. split; [exact Hp|].
    apply (StronglySorted_impl_in (Forall scalar_value)
             (fun a b => str_ltb a b = true)); [| |exact Hss].
    + rewrite Forall_forall in Hs |- *. intros k Hk.
      apply (Permutation_in _ Hp), in_map_iff in Hk. destruct Hk as [kv [<- Hkv]].
      now apply Hs.
    + intros a b Ha Hb. now apply str_ltb_utf8_ltb.
  - split; vm_compute; reflexivity.
Qed.

(** ** The text of numbers *)

Lemma dec_digits_aux_chars : forall fuel n acc, Forall int_char acc ->
  Forall int_char (dec_digits_aux fuel n acc).
Proof.
  induction fuel as [|fuel IH]; intros n acc H; simpl; [exact H|].
  assert (Hd : Forall int_char ((48 + n mod 10) :: acc)).
  { constructor; [|exact H]. right. pose proof (Z.mod_pos_bound n 10). lia. }
  destruct (n <? 10); [exact Hd|]. now apply IH.
Qed.

Lemma int_repr_chars : forall z, Forall int_char (int_repr z).
Proof.
  intros z. unfold int_repr, dec_digits. destruct (z <? 0).
  - constructor; [now left|]. now apply dec_digits_aux_chars.
  - now apply dec_digits_aux_chars.
Qed.

Lemma format_short_mark : forall ds decpt, In 46 (format_short ds decpt) \/ In 101 (format_short ds decpt).
Proof.
  intros ds decpt. unfold format_short.
  destruct ((decpt <=? -4) || (16 <? decpt)).
  - right. apply in_or_app. right. apply in_or_app. right. now left.
  - destruct (decpt <=? 0); [left; simpl; auto|].
    destruct (decpt <? Z.of_nat (length ds)); left; apply in_or_app; right.
    + now left.
    + apply in_or_app. right. now left.
Qed.

Lemma float_repr_mark : forall f, exists c, In c (float_repr f) /\ ~ int_char c.
Proof.
  intros f. unfold float_repr, int_char. destruct (Prim2SF f) as [s|s| |s m e].
  - exists 46. split; [|lia]. apply in_or_app. right. simpl. auto.
  - exists 110. split; [|lia]. destruct s; simpl; auto.
  - exists 110. split; [|lia]. simpl. auto.
  - destruct (ShortRepr.shortest m e) as [D sc].
    destruct (format_short_mark (dec_digits D) (Z.of_nat (length (dec_digits D)) + sc)) as [H|H];
      [exists 46|exists 101]; (split; [|lia]); apply in_or_app; now right.
Qed.

Lemma json_float_mark : forall f, exists c, In c (json_float f) /\ ~ int_char c.
Proof.
  intros f. unfold json_float, int_char.
  destruct (is_nan f); [exists 78; split; [simpl; auto|lia]|].
  destruct (f =? infinity)%float; [exists 73; split; [simpl; auto|lia]|].
  destruct (f =? neg_infinity)%float; [exists 73; split; [simpl; auto|lia]|].
  apply float_repr_mark.
Qed.

Lemma int_repr_json_float : forall z f, int_repr z <> json_float f.
Proof.
  intros z f E. destruct (json_float_mark f) as [c [Hin Hc]]. rewrite <- E in Hin.
  pose proof (int_repr_chars z) as H. rewrite Forall_forall in H. exact (Hc (H c Hin)).
Qed.

Lemma canonicalize_json_single : forall loads k v s,
  canonicalize_value v = Ok v -> dumps v = Ok s ->
  canonicalize_json loads (PDict [(k, v)]) =
  Ok ([123] ++ encode_basestring k ++ [58] ++ s ++ [125]).
Proof.
  intros loads k v s Hc Hd. unfold canonicalize_json.
  cbn [bind canonicalize_value map fst snd sort_items insert_item sequence_items].
  rewrite Hc. cbn [bind dumps map fst snd sort_items insert_item sequence_items].
  rewrite Hd. cbn [bind map fst snd join]. now rewrite <- !app_assoc.
Qed.

(** C9. An int and a float never have the same canonical string, on their
    own or as the value of the same key, and {"a":1} and {"a":1.0} have
    different canonical hashes. *)
Theorem int_float_distinct : forall loads : pystr -> exc pyval,
  (forall z f, canonicalize_json loads (PInt z) <> canonicalize_json loads (PFloat f)) /\
  (forall k z f, canonicalize_json loads (PDict [(k, PInt z)]) <>
                 canonicalize_json loads (PDict [(k, PFloat f)])) /\
  canonicalize_json loads (PDict [(lit "a", PInt 1)]) = Ok (jlit "{'a':1}") /\
  canonicalize_json loads (PDict [(lit "a", PFloat 1.0)]) = Ok (jlit "{'a':1.0}") /\
  compute_canonical_hash loads (PDict [(lit "a", PInt 1)]) <>
    compute_canonical_hash loads (PDict [(lit "a", PFloat 1.0)]).
Proof.
  intros loads. split; [|split; [|split; [|split]]].
  - intros z f E. unfold canonicalize_json in E. cbn [bind canonicalize_value dumps] in E.
    apply Ok_inj in E. exact (int_repr_json_float z f E).
  - intros k z f E.
    rewrite (canonicalize_json_single loads k (PInt z) (int_repr z)),
      (canonicalize_json_single loads k (PFloat f) (json_float f)) in E by reflexivity.
    apply Ok_inj, app_inv_head, app_inv_head, app_inv_head, app_inv_tail in E.
    exact (int_repr_json_float z f E).
  - vm_compute. reflexivity.
  - vm_compute. reflexivity.
  - vm_compute. discriminate.
Qed.

(** ** Supported values *)

Section PyvalInd.
Variable P : pyval -> Prop.
Hypothesis HNone : P PNone.
Hypothesis HBool : forall b, P (PBool b).
Hypothesis HInt : forall z, P (PInt z).
Hypothesis HFloat : forall f, P (PFloat f).
Hypothesis HStr : forall s, P (PStr s).
Hypothesis HList : forall l, Forall P l -> P (PList l).
Hypothesis HTuple : forall l, Forall P l -> P (PTuple l).
Hypothesis HDict : forall kvs, Forall (fun kv => P (snd kv)) kvs -> P (PDict kvs).
Hypothesis HOther : forall t, P (POther t).

Fixpoint pyval_ind' (v : pyval) : P v :=
  let fix go (l : list pyval) : Forall P l :=
    match l with
    | [] => Forall_nil _
    | x :: l' => Forall_cons _ (pyval_ind' x) (go l')
    end in
  let fix go_items (l : list (pystr * pyval)) : Forall (fun kv => P (snd kv)) l :=
    match l with
    | [] => Forall_nil _
    | (k, x) :: l' => Forall_cons (P := fun kv => P (snd kv)) (k, x) (pyval_ind' x) (go_items l')
    end in
  match v with
  | PNone => HNone
  | PBool b => HBool b
  | PInt z => HInt z
  | PFloat f => HFloat f
  | PStr s => HStr s
  | PList l => HList l (go l)
  | PTuple l => HTuple l (go l)
  | PDict kvs => HDict kvs (go_items kvs)
  | POther t => HOther t
  end.
End PyvalInd.

Lemma insert_item_map_snd {A B} (g : A -> B) : forall it l,
  insert_item (fst it, g (snd it)) (map (fun kv => (fst kv, g (snd kv))) l) =
  map (fun kv => (fst kv, g (snd kv))) (insert_item it l).
Proof.
  intros it l. induction l as [|it' l IH]; simpl; [reflexivity|].
  destruct (str_ltb (fst it') (fst it)); simpl; [now rewrite IH|reflexivity].
Qed.

Lemma sort_items_map_snd {A B} (g : A -> B) : forall l,
  sort_items (map (fun kv => (fst kv, g (snd kv))) l) =
  map (fun kv => (fst kv, g (snd kv))) (sort_items l).
Proof.
  induction l as [|it l IH]; simpl; [reflexivity|].
  rewrite IH. apply (insert_item_map_snd g it (sort_items l)).
Qed.

Lemma Forall_sort_items {A} (Q : pystr * A -> Prop) : forall l,
  Forall Q l -> Forall Q (sort_items l).
Proof.
  intros l H. rewrite Forall_forall in H |- *. intros x Hx.
  apply H. exact (Permutation_in _ (sort_items_perm l) Hx).
Qed.

Lemma forallb_sort_items {A} (q : pystr * A -> bool) : forall l,
  forallb q (sort_items l) = forallb q l.
Proof.
  intros l. apply eq_true_iff_eq. rewrite !forallb_forall. split; intros H x Hx; apply H.
  - exact (Permutation_in _ (Permutation_sym (sort_items_perm l)) Hx).
  - exact (Permutation_in _ (sort_items_perm l) Hx).
Qed.

Lemma sequence_ok {A B} (g : A -> exc B) : forall l,
  Forall (fun x => exists y, g x = Ok y) l -> exists r, sequence (map g l) = Ok r.
Proof.
  induction l as [|x l IH]; intros H; simpl; [eauto|].
  inversion H as [|? ? [y Hy] Hl]; subst. destruct (IH Hl) as [r Hr].
  rewrite Hy, Hr. simpl. eauto.
Qed.

Lemma sequence_items_ok {A B} (g : A -> exc B) : forall l,
  Forall (fun kv => exists y, g (snd kv) = Ok y) l ->
  exists r, sequence_items (map (fun kv => (fst kv, g (snd kv))) l) = Ok r.
Proof.
  induction l as [|[k x] l IH]; intros H; simpl; [eauto|].
  inversion H as [|? ? [y Hy] Hl]; subst. destruct (IH Hl) as [r Hr].
  simpl in Hy. rewrite Hy. simpl. rewrite Hr. simpl. eauto.
Qed.

Lemma sequence_canon : forall l, Forall canon_outcome l ->
  match sequence (map canonicalize_value l) with
  | Ok l' => forallb supported l = true /\ forallb supported l' = true
  | Raise e => forallb supported l = false /\ unsupported_error e
  end.
Proof.
  induction l as [|x l IH]; intros H; simpl; [auto|].
  inversion H as [|? ? Hx Hl]; subst. unfold canon_outcome in Hx.
  destruct (canonicalize_value x) as [x'|e]; simpl.
  - destruct Hx as [Hx Hx']. rewrite Hx. specialize (IH Hl).
    destruct (sequence (map canonicalize_value l)); simpl; [|tauto].
    rewrite Hx'. simpl. tauto.
  - destruct Hx as [Hx He]. now rewrite Hx.
Qed.

Lemma sequence_items_canon : forall l, Forall (fun kv => canon_outcome (snd kv)) l ->
  match sequence_items (map (fun kv => (fst kv, canonicalize_value (snd kv))) l) with
  | Ok l' => forallb (fun kv => supported (snd kv)) l = true /\
             forallb (fun kv => supported (snd kv)) l' = true
  | Raise e => forallb (fun kv => supported (snd kv)) l = false /\ unsupported_error e
  end.
Proof.
  induction l as [|[k x] l IH]; intros H; simpl; [auto|].
  inversion H as [|? ? Hx Hl]; subst. unfold canon_outcome in Hx. simpl in Hx.
  destruct (canonicalize_value x) as [x'|e]; simpl.
  - destruct Hx as [Hx Hx']. rewrite Hx. specialize (IH Hl).
    destruct (sequence_items (map (fun kv => (fst kv, canonicalize_value (snd kv))) l));
      simpl; [|tauto].
    rewrite Hx'. simpl. tauto.
  - destruct Hx as [Hx He]. now rewrite Hx.
Qed.

Lemma canonicalize_value_outcome : forall v, canon_outcome v.
Proof.
  apply pyval_ind'; try (intros; unfold canon_outcome; simpl; auto; fail).
  - intros l Hl. unfold canon_outcome. cbn [canonicalize_value supported].
    pose proof (sequence_canon l Hl) as H.
    destruct (sequence (map canonicalize_value l)); simpl; tauto.
  - intros l Hl. unfold canon_outcome. cbn [canonicalize_value supported].
    pose proof (sequence_canon l Hl) as H.
    destruct (sequence (map canonicalize_value l)); simpl; tauto.
  - intros kvs Hk. unfold canon_outcome. cbn [canonicalize_value supported].
    rewrite (sort_items_map_snd canonicalize_value).
    pose proof (sequence_items_canon (sort_items kvs) (Forall_sort_items _ kvs Hk)) as H.
    rewrite forallb_sort_items in H.
    destruct (sequence_items _); simpl; tauto.
  - intros t. unfold canon_outcome. simpl. split; [reflexivity|]. now exists t.
Qed.

Lemma dumps_ok : forall v, supported v = true -> exists s, dumps v = Ok s.
Proof.
  apply (pyval_ind' (fun v => supported v = true -> exists s, dumps v = Ok s));
    try (intros; simpl; eauto; fail).
  - intros l Hl Hs. cbn [dumps supported] in *. destruct (sequence_ok dumps l) as [r Hr].
    + rewrite Forall_forall in Hl |- *. rewrite forallb_forall in Hs. intros x Hx. auto.
    + rewrite Hr. simpl. eauto.
  - intros l Hl Hs. cbn [dumps supported] in *. destruct (sequence_ok dumps l) as [r Hr].
    + rewrite Forall_forall in Hl |- *. rewrite forallb_forall in Hs. intros x Hx. auto.
    + rewrite Hr. simpl. eauto.
  - intros kvs Hk Hs. cbn [dumps supported] in *. rewrite (sort_items_map_snd dumps).
    destruct (sequence_items_ok dumps (sort_items kvs)) as [r Hr].
    + apply Forall_sort_items. rewrite Forall_forall in Hk |- *.
      rewrite forallb_forall in Hs. intros x Hx. auto.
    + rewrite Hr. simpl. eauto.
  - intros t Hs. discriminate.
Qed.



Example ex_valid : validate_ex (tampa_ex 0.9 0.9 0.8 [span_ex "test" 10 14]) = Ok Valid.
Proof. vm_compute. reflexivity. Qed.
Example ex_mismatch : validate_ex (tampa_ex 0.9 0.9 0.8 [span_ex "test" 0 4]) =
  Ok (Invalid (span_text_mismatch 0 (lit "test") (lit "This"))).
Proof. vm_compute. reflexivity. Qed.
Example ex_prov : validate_ex (tampa_ex 0.5 0.1 0.8 []) = Ok (Invalid (provenance_mismatch 0.5 0.1)).
Proof. vm_compute. reflexivity. Qed.
Example ex_9005 : validate_ex (tampa_ex 0.9005 0.899 0.8 []) = Ok Valid.
Proof. vm_compute. reflexivity. Qed.
Example ex_mb_big : validate_ex (tampa_ex 0.9 0.9 1.5 []) = Ok (Invalid pydantic_validation_failed).
Proof. vm_compute. reflexivity. Qed.

(** ** Properties of the Pydantic gate *)

Lemma some_inj : forall (A : Type) (a b : A), Some a = Some b -> a = b.
Proof. intros A a b H. now inversion H. Qed.

(** Walks through a chain of [let?] in a hypothesis [... = Some _]. *)
Ltac peel H :=
  repeat match type of H with
  | (match ?m with Some _ => _ | None => None end) = Some _ =>
      let E := fresh "E" in destruct m eqn:E; [cbv beta iota in H|discriminate H]
  end.

(** Shows that a chain of [let?] is [None]. *)
Ltac none_chain :=
  cbv beta iota;
  repeat match goal with
  | |- (match ?m with Some _ => _ | None => None end) = None =>
      destruct m; cbv beta iota; [|reflexivity]
  end; try reflexivity.

Lemma required_some {A} : forall d name (p : pyval -> option A) a,
  required d name p = Some a -> exists v, field d (lit name) = Some v /\ p v = Some a.
Proof. unfold required. intros d name p a H. destruct (field d (lit name)); [eauto|discriminate]. Qed.

Lemma float_in_ok : forall pf lo hi v f, float_in pf lo hi v = Some f -> float_ok lo hi f.
Proof.
  unfold float_in, float_ok, in_range. intros pf lo hi v f H.
  destruct (as_float pf v) as [g|]; [|discriminate].
  destruct ((lo <=? g)%float && (g <=? hi)%float) eqn:E; [|discriminate].
  apply some_inj in H. now subst.
Qed.

Lemma required_float_ok : forall pf d name lo hi f,
  required d name (float_in pf lo hi) = Some f -> float_ok lo hi f.
Proof.
  intros pf d name lo hi f H. destruct (required_some _ _ _ _ H) as [v [_ Hv]].
  exact (float_in_ok _ _ _ _ _ Hv).
Qed.

Lemma provenance_breakdown_model_ok : forall pf v pb,
  provenance_breakdown_model pf v = Some pb -> pb_ok pb.
Proof.
  intros pf v pb H. unfold provenance_breakdown_model in H. peel H.
  apply some_inj in H. subst pb. unfold pb_ok. cbn [ProvenanceBreakdown.match_base
    ProvenanceBreakdown.main_content_bonus ProvenanceBreakdown.integrity_adjust
    ProvenanceBreakdown.multisource_bonus ProvenanceBreakdown.authority_boost
    ProvenanceBreakdown.final].
  repeat split; eapply required_float_ok; eassumption.
Qed.

Lemma first_missing_none : forall d,
  (exists v, field d (lit "verdict_hint") = Some v) ->
  (exists v, field d (lit "matched_spans") = Some v) ->
  (exists v, field d (lit "provenanceConfidence") = Some v) ->
  (exists v, field d (lit "provenance_breakdown") = Some v) ->
  (exists v, field d (lit "internal") = Some v) ->
  first_missing d required_fields = None.
Proof.
  intros d [v1 H1] [v2 H2] [v3 H3] [v4 H4] [v5 H5].
  cbn [first_missing required_fields]. now rewrite H1, H2, H3, H4, H5.
Qed.

(** What passing the Pydantic gate gives the later steps. *)
Lemma tampa_output_model_ok : forall pf pi d o,
  tampa_output_model pf pi d = Some o ->
  float_ok 0 0.995 (TampaOutput.provenanceConfidence o) /\
  pb_ok (TampaOutput.provenance_breakdown o) /\
  first_missing d required_fields = None.
Proof.
  intros pf pi d o H. unfold tampa_output_model in H. peel H.
  apply some_inj in H. subst o. cbn [TampaOutput.provenanceConfidence TampaOutput.provenance_breakdown].
  split; [eapply required_float_ok; eassumption|]. split.
  - destruct (required_some _ _ _ _ E3) as [v [_ Hv]].
    exact (provenance_breakdown_model_ok _ _ _ Hv).
  - apply first_missing_none;
      [destruct (required_some _ _ _ _ E) as [v [Hv _]]
      |destruct (required_some _ _ _ _ E0) as [v [Hv _]]
      |destruct (required_some _ _ _ _ E4) as [v [Hv _]]
      |destruct (required_some _ _ _ _ E3) as [v [Hv _]]
      |destruct (required_some _ _ _ _ E5) as [v [Hv _]]]; eauto.
Qed.

(** ** Properties of the validator *)

Lemma validate_gate_fail : forall pf pi d text,
  tampa_output_model pf pi d = None ->
  validate_tampa_output pf pi d text = Ok (Invalid pydantic_validation_failed).
Proof. intros pf pi d text H. unfold validate_tampa_output. now rewrite H. Qed.

Lemma validate_gate_ok : forall pf pi d text o,
  tampa_output_model pf pi d = Some o ->
  validate_tampa_output pf pi d text =
  match check_provenance o with
  | Some e => Ok (Invalid e)
  | None =>
      expected_drhash <- sha256_hex text ;;
      let got := Internal.drhash (TampaOutput.internal o) in
      if negb (pystr_eqb got expected_drhash) then Ok (Invalid (drhash_mismatch expected_drhash got))
      else match check_spans text expected_drhash 0 (TampaOutput.matched_spans o) with
           | Some e => Ok (Invalid e)
           | None => Ok Valid
           end
  end.
Proof.
  intros pf pi d text o H. unfold validate_tampa_output. rewrite H.
  now rewrite (proj2 (proj2 (tampa_output_model_ok _ _ _ _ H))).
Qed.

Lemma check_spans_span_error : forall text h spans idx e,
  check_spans text h idx spans = Some e -> span_error e = true.
Proof.
  intros text h spans. induction spans as [|sp rest IH]; intros idx e H; simpl in H; [discriminate|].
  repeat match type of H with
  | (if ?c then _ else _) = _ => destruct c; [apply some_inj in H; subst e; reflexivity|]
  end.
  exact (IH _ _ H).
Qed.

(** After Pydantic, the result is one of the later steps' errors or [Valid]. *)
Lemma validate_after_provenance : forall pf pi d text o e,
  tampa_output_model pf pi d = Some o -> check_provenance o = None ->
  validate_tampa_output pf pi d text = Ok (Invalid e) ->
  (exists h g, e = drhash_mismatch h g) \/ span_error e = true.
Proof.
  intros pf pi d text o e Hm Hc H. rewrite (validate_gate_ok _ _ _ _ _ Hm), Hc in H.
  destruct (sha256_hex text) as [h|x]; cbn [bind] in H; [|discriminate].
  destruct (negb _); [apply Ok_inj in H; left; inversion H; eauto|].
  destruct (check_spans _ _ _ _) as [e'|] eqn:Hs; apply Ok_inj in H; [|discriminate].
  inversion H; subst. right. eapply check_spans_span_error. exact Hs.
Qed.

Lemma py_slice_in_bounds : forall t s e, 0 <= s <= e -> e <= Z.of_nat (length t) ->
  py_slice t s e = firstn (Z.to_nat (e - s)) (skipn (Z.to_nat s) t).
Proof.
  intros t s e H1 H2. unfold py_slice, py_index.
  rewrite (proj2 (Z.ltb_ge s 0)), (proj2 (Z.ltb_ge e 0)) by lia.
  rewrite (Z.min_l s), (Z.min_l e) by lia. reflexivity.
Qed.

Ltac ltb_facts :=
  repeat match goal with
  | |- context [?a <? ?b] =>
      first [ rewrite (proj2 (Z.ltb_lt a b)) by lia | rewrite (proj2 (Z.ltb_ge a b)) by lia ]
  end.

(** C2. The checks of a span, in order, each stopping the loop: a negative
    start or an end before the start is an invalid range; then an end past
    the length of the text (in code points) is out of bounds; then the code
    point slice [text[start:end]] must be the span's text; then the span's
    drhash must be the expected one, after which the next span is checked.
    The expected drhash is the SHA-256 hex digest of the canonical text. On
    "This is a test document.", the span "test" at 10..14 validates and the
    same span at 0..4 fails with a text mismatch. *)
Theorem span_validation_order (text expected : pystr) (idx : Z) (span : Span.t)
    (rest : list Span.t) :
  let len := Z.of_nat (length text) in
  let s := Span.start span in
  let e := Span.end_ span in
  let slice := firstn (Z.to_nat (e - s)) (skipn (Z.to_nat s) text) in
  (s < 0 \/ e < s -> exists reason,
     check_spans text expected idx (span :: rest) = Some (span_invalid_range idx reason)) /\
  (0 <= s <= e -> len < e ->
     check_spans text expected idx (span :: rest) = Some (span_out_of_bounds idx s e len)) /\
  (0 <= s <= e -> e <= len -> slice <> Span.text span ->
     check_spans text expected idx (span :: rest) =
       Some (span_text_mismatch idx (Span.text span) slice)) /\
  (0 <= s <= e -> e <= len -> slice = Span.text span -> Span.drhash span <> expected ->
     check_spans text expected idx (span :: rest) =
       Some (span_drhash_mismatch idx expected (Span.drhash span))) /\
  (0 <= s <= e -> e <= len -> slice = Span.text span -> Span.drhash span = expected ->
     check_spans text expected idx (span :: rest) = check_spans text expected (idx + 1) rest) /\
  (forall pf pi d o h, tampa_output_model pf pi d = Some o -> check_provenance o = None ->
     sha256_hex text = Ok h -> Internal.drhash (TampaOutput.internal o) = h ->
     validate_tampa_output pf pi d text =
       Ok (match check_spans text h 0 (TampaOutput.matched_spans o) with
           | Some err => Invalid err
           | None => Valid
           end)) /\
  validate_ex (tampa_ex 0.9 0.9 0.8 [span_ex "test" 10 14]) = Ok Valid /\
  validate_ex (tampa_ex 0.9 0.9 0.8 [span_ex "test" 0 4]) =
    Ok (Invalid (span_text_mismatch 0 (lit "test") (lit "This"))).
Proof.
  cbv zeta. cbn [check_spans]. cbv zeta.
  split; [|split; [|split; [|split; [|split; [|split; [|split]]]]]].
  - intros [H|H].
    + rewrite (proj2 (Z.ltb_lt _ _) H). eexists; reflexivity.
    + destruct (Span.start span <? 0); [eexists; reflexivity|].
      rewrite (proj2 (Z.ltb_lt _ _) H). eexists; reflexivity.
  - intros H1 H2. ltb_facts. rewrite orb_true_r. reflexivity.
  - intros H1 H0 H2. ltb_facts. cbn [orb].
    rewrite py_slice_in_bounds by lia. unfold pystr_eqb.
    destruct (list_eq_dec Z.eq_dec _ _); [contradiction|reflexivity].
  - intros H1 H0 H2 H3. ltb_facts. cbn [orb].
    rewrite py_slice_in_bounds by lia. unfold pystr_eqb.
    destruct (list_eq_dec Z.eq_dec _ _); [|contradiction]. cbn [negb].
    destruct (list_eq_dec Z.eq_dec (Span.drhash span) expected); [contradiction|reflexivity].
  - intros H1 H0 H2 H3. ltb_facts. cbn [orb].
    rewrite py_slice_in_bounds by lia. unfold pystr_eqb.
    destruct (list_eq_dec Z.eq_dec _ _); [|contradiction]. cbn [negb].
    destruct (list_eq_dec Z.eq_dec (Span.drhash span) expected); [reflexivity|contradiction].
  - intros pf pi d o h Hm Hc Hh Hd. rewrite (validate_gate_ok _ _ _ _ _ Hm), Hc, Hh.
    cbn [bind]. rewrite Hd. unfold pystr_eqb.
    destruct (list_eq_dec Z.eq_dec h h) as [_|n]; [|now contradiction n]. cbn [negb].
    now destruct (check_spans text h 0 (TampaOutput.matched_spans o)).
  - vm_compute. reflexivity.
  - vm_compute. reflexivity.
Qed.

(** The range checks of step 4 never fire on an output that passed the
    gate: only the tolerance check of step 3 can fail. *)
Lemma check_provenance_in_range : forall o,
  float_ok 0 0.995 (TampaOutput.provenanceConfidence o) ->
  pb_ok (TampaOutput.provenance_breakdown o) ->
  check_provenance o = None \/ exists a b, check_provenance o = Some (provenance_mismatch a b).
Proof.
  intros o Hpc [H1 [H2 [H3 [H4 [H5 H6]]]]]. unfold float_ok in *.
  unfold check_provenance. cbv zeta. rewrite Hpc, H1, H2, H3, H4, H5, H6. cbn [negb].
  match goal with |- context [if ?c then _ else _] => destruct c end;
    [right; eexists; eexists; reflexivity|left; reflexivity].
Qed.

Lemma required_float_none : forall pf d name v f lo hi,
  field d (lit name) = Some v -> as_float pf v = Some f ->
  in_range lo hi f = false -> required d name (float_in pf lo hi) = None.
Proof.
  intros pf d name v f lo hi Hv Hf Hr. unfold required, float_in. rewrite Hv.
  cbv beta iota. rewrite Hf. cbv beta iota. unfold in_range in Hr. now rewrite Hr.
Qed.

Lemma Invalid_inj : forall e e', Ok (Invalid e) = Ok (Invalid e') -> e = e'.
Proof. intros e e' H. apply Ok_inj in H. now inversion H. Qed.

Lemma tampa_output_model_none : forall pf pi d,
  required d "provenance_breakdown" (provenance_breakdown_model pf) = None ->
  tampa_output_model pf pi d = None.
Proof. intros pf pi d H. unfold tampa_output_model. rewrite H. none_chain. Qed.

(** A [provenance_breakdown] field outside the bounds of its range check,
    or NaN, fails the Pydantic gate. *)
Lemma breakdown_field_out_of_range : forall pf pi d text pbd name lo hi v f,
  In (name, lo, hi) breakdown_bounds ->
  field d (lit "provenance_breakdown") = Some (PDict pbd) ->
  field pbd (lit name) = Some v -> as_float pf v = Some f -> in_range lo hi f = false ->
  validate_tampa_output pf pi d text = Ok (Invalid pydantic_validation_failed).
Proof.
  intros pf pi d text pbd name lo hi v f Hin Hd Hv Hf Hr.
  apply validate_gate_fail, tampa_output_model_none.
  unfold required. rewrite Hd. cbv beta iota.
  pose proof (required_float_none pf pbd name v f lo hi Hv Hf Hr) as Hn.
  unfold provenance_breakdown_model. cbn [as_dict]. cbv beta iota.
  cbn [breakdown_bounds In] in Hin.
  destruct Hin as [E|[E|[E|[E|[E|[E|[]]]]]]]; injection E as <- <- <-; rewrite Hn; none_chain.
Qed.

(** A [provenanceConfidence] outside [0, 0.995], or NaN, fails the Pydantic
    gate. *)
Lemma confidence_out_of_range : forall pf pi d text v f,
  field d (lit "provenanceConfidence") = Some v -> as_float pf v = Some f ->
  in_range 0 0.995 f = false ->
  validate_tampa_output pf pi d text = Ok (Invalid pydantic_validation_failed).
Proof.
  intros pf pi d text v f Hv Hf Hr. apply validate_gate_fail. unfold tampa_output_model.
  rewrite (required_float_none pf d "provenanceConfidence" v f 0 0.995 Hv Hf Hr). none_chain.
Qed.

(** C1 (amended). The four components [match_base], [main_content_bonus],
    [multisource_bonus] and [authority_boost] are bounded by [0, 1], not by
    [0, 0.995]. The schema's [Field(ge=0.0, le=1.0)] makes a number outside
    [0, 1] in one of them, or a NaN, fail the Pydantic gate, reported as
    [pydantic_validation_failed] and not as an out-of-range field. Every
    record that passes the gate has each of the four in [0, 1]. So
    [match_base = 0.997] is valid, and [match_base = 1.5] is rejected by the
    gate. *)
Theorem components_unit_interval :
  (forall pf pi d text pbd name v f,
     In name unit_components ->
     field d (lit "provenance_breakdown") = Some (PDict pbd) ->
     field pbd (lit name) = Some v -> as_float pf v = Some f ->
     in_range 0 1 f = false ->
     validate_tampa_output pf pi d text = Ok (Invalid pydantic_validation_failed)) /\
  (forall pf pi d o, tampa_output_model pf pi d = Some o ->
     let pb := TampaOutput.provenance_breakdown o in
     Forall (fun x => in_range 0 1 x = true)
       [ProvenanceBreakdown.match_base pb; ProvenanceBreakdown.main_content_bonus pb;
        ProvenanceBreakdown.multisource_bonus pb; ProvenanceBreakdown.authority_boost pb]) /\
  validate_ex (tampa_ex 0.9 0.9 0.997 []) = Ok Valid /\
  validate_ex (tampa_ex 0.9 0.9 1.5 []) = Ok (Invalid pydantic_validation_failed) /\
  validate_ex (tampa_ex 0.9 0.9 nan []) = Ok (Invalid pydantic_validation_failed).
Proof.
  split; [|split; [|split; [|split]]].
  - intros pf pi d text pbd name v f Hin Hd Hv Hf Hr.
    apply (breakdown_field_out_of_range pf pi d text pbd name 0 1 v f); try assumption.
    cbn [unit_components In] in Hin. cbn [breakdown_bounds In].
    destruct Hin as [<-|[<-|[<-|[<-|[]]]]]; tauto.
  - intros pf pi d o Hm pb.
    destruct (tampa_output_model_ok _ _ _ _ Hm) as [_ [[H1 [H2 [_ [H4 [H5 _]]]]] _]].
    repeat constructor; assumption.
  - vm_compute. reflexivity.
  - vm_compute. reflexivity.
  - vm_compute. reflexivity.
Qed.

(** C1 (counterexample). [match_base = 0.997], above 0.995, passes the
    validator. *)
Example match_base_0997_valid : validate_ex (tampa_ex 0.9 0.9 0.997 []) = Ok Valid.
Proof. vm_compute. reflexivity. Qed.

(** C10. The validator never returns [provenance_out_of_range]. Every range
    check of step 4 ([provenanceConfidence] and [final] in [0, 0.995],
    [match_base], [main_content_bonus], [multisource_bonus] and
    [authority_boost] in [0, 1], [integrity_adjust] in [-1, 1]) is enforced
    with the same bounds by the Pydantic gate that runs first, which also
    rejects a NaN. So the range checks never fire on an output that passed
    the gate, and a value outside its bounds is reported as
    [pydantic_validation_failed]. *)
Theorem provenance_range_checks_unreachable :
  (forall pf pi d o, tampa_output_model pf pi d = Some o ->
     forall name value, check_provenance o <> Some (provenance_out_of_range name value)) /\
  (forall pf pi d text name value,
     validate_tampa_output pf pi d text <> Ok (Invalid (provenance_out_of_range name value))) /\
  (forall pf pi d text v f,
     field d (lit "provenanceConfidence") = Some v -> as_float pf v = Some f ->
     in_range 0 0.995 f = false ->
     validate_tampa_output pf pi d text = Ok (Invalid pydantic_validation_failed)) /\
  (forall pf pi d text pbd name lo hi v f,
     In (name, lo, hi) breakdown_bounds ->
     field d (lit "provenance_breakdown") = Some (PDict pbd) ->
     field pbd (lit name) = Some v -> as_float pf v = Some f -> in_range lo hi f = false ->
     validate_tampa_output pf pi d text = Ok (Invalid pydantic_validation_failed)) /\
  validate_ex (tampa_ex nan 0.9 0.8 []) = Ok (Invalid pydantic_validation_failed) /\
  validate_ex (tampa_ex 0.9 nan 0.8 []) = Ok (Invalid pydantic_validation_failed).
Proof.
  assert (Hc : forall pf pi d o, tampa_output_model pf pi d = Some o ->
     forall name value, check_provenance o <> Some (provenance_out_of_range name value)).
  { intros pf pi d o Hm name value Hc.
    destruct (tampa_output_model_ok _ _ _ _ Hm) as [Hpc [Hpb _]].
    destruct (check_provenance_in_range o Hpc Hpb) as [E|[a [b E]]]; rewrite E in Hc;
      discriminate. }
  split; [exact Hc|]. split; [|split; [|split; [|split]]].
  - intros pf pi d text name value H.
    destruct (tampa_output_model pf pi d) as [o|] eqn:Hm;
      [|rewrite (validate_gate_fail _ _ _ _ Hm) in H; apply Invalid_inj in H; discriminate].
    destruct (check_provenance o) as [e|] eqn:Ec.
    + rewrite (validate_gate_ok _ _ _ _ _ Hm), Ec in H. apply Invalid_inj in H. subst e.
      exact (Hc _ _ _ _ Hm _ _ Ec).
    + destruct (validate_after_provenance _ _ _ _ _ _ Hm Ec H) as [[h [g E]]|E];
        discriminate E.
  - exact confidence_out_of_range.
  - exact breakdown_field_out_of_range.
  - vm_compute. reflexivity.
  - vm_compute. reflexivity.
Qed.

(** C3. On a record that passes the Pydantic gate, [provenanceConfidence] and
    [provenance_breakdown.final] are rounded to 3 decimals by [round(x, 3)],
    and the validator reports [provenance_mismatch] with the two rounded
    values when the absolute difference of these exceeds 0.002. When it does
    not, the validator reports no [provenance_mismatch] at all. So 0.900 and
    0.900 are valid, 0.500 and 0.100 mismatch, and 0.9005 and 0.899 are
    valid. *)
Theorem provenance_tolerance : forall pf pi d text o,
  tampa_output_model pf pi d = Some o ->
  let pc_rounded := py_round (TampaOutput.provenanceConfidence o) 3 in
  let pb_final_rounded :=
    py_round (ProvenanceBreakdown.final (TampaOutput.provenance_breakdown o)) 3 in
  ((PROVENANCE_TOLERANCE <? abs (pc_rounded - pb_final_rounded))%float = true ->
   validate_tampa_output pf pi d text =
     Ok (Invalid (provenance_mismatch pc_rounded pb_final_rounded))) /\
  ((PROVENANCE_TOLERANCE <? abs (pc_rounded - pb_final_rounded))%float = false ->
   forall a b, validate_tampa_output pf pi d text <> Ok (Invalid (provenance_mismatch a b))) /\
  validate_ex (tampa_ex 0.9 0.9 0.8 []) = Ok Valid /\
  validate_ex (tampa_ex 0.5 0.1 0.8 []) = Ok (Invalid (provenance_mismatch 0.5 0.1)) /\
  validate_ex (tampa_ex 0.9005 0.899 0.8 []) = Ok Valid.
Proof.
  intros pf pi d text o Hm. cbv zeta.
  split; [|split; [|split; [|split]]].
  - intros Hf. rewrite (validate_gate_ok _ _ _ _ _ Hm).
    unfold check_provenance. cbv zeta. now rewrite Hf.
  - intros Hf a b H.
    destruct (check_provenance o) as [e|] eqn:Hc.
    + rewrite (validate_gate_ok _ _ _ _ _ Hm), Hc in H. apply Invalid_inj in H. subst e.
      unfold check_provenance in Hc. cbv zeta in Hc. rewrite Hf in Hc.
      repeat match type of Hc with
      | (if ?c then _ else _) = _ => destruct c
      end; try discriminate Hc; apply some_inj in Hc; discriminate Hc.
    + destruct (validate_after_provenance _ _ _ _ _ _ Hm Hc H) as [[h [g E]]|E];
        discriminate E.
  - vm_compute. reflexivity.
  - vm_compute. reflexivity.
  - vm_compute. reflexivity.
Qed.

(** C3: the hypothesis of [provenance_tolerance] holds on the record with
    confidence 0.5 and final 0.1, which mismatch. *)
Lemma provenance_tolerance_witness :
  validate_ex (tampa_ex 0.5 0.1 0.8 []) =
    Ok (Invalid (provenance_mismatch (py_round 0.5 3) (py_round 0.1 3))).
Proof.
  refine (proj1 (provenance_tolerance no_parse_float no_parse_int (tampa_ex 0.5 0.1 0.8 [])
                   doc_text _ eq_refl) _).
  vm_compute. reflexivity.
Defined.

(** C4: the hypotheses of [compare_unanimity] hold on two executions with
    output [{"result":42}], which reach consensus. *)
Lemma compare_unanimity_witness :
  consensus_reached (compare no_loads [result_ex 42; result_ex 42]) = true.
Proof.
  refine (proj1 (proj1 (compare_unanimity no_loads [result_ex 42; result_ex 42]
                          (hash_or_empty no_loads) _ _) _)).
  - simpl. lia.
  - intros ex [<-|[<-|[]]]; vm_compute; reflexivity.
  - intros x y [<-|[<-|[]]] [<-|[<-|[]]]; reflexivity.
Defined.

(** C6: the hypotheses of [compare_partial_failure] hold on an execution
    with output [{"result":42}] and one whose output is a set; the first
    alone is hashed, so consensus is reached. *)
Lemma compare_partial_failure_witness :
  consensus_reached (compare no_loads [result_ex 42; set_ex]) = true.
Proof.
  assert (Hlen : (2 <= length [result_ex 42; set_ex])%nat) by (simpl; lia).
  assert (Hfail : exists ex e, In ex [result_ex 42; set_ex] /\
            compute_canonical_hash no_loads (get_outputs ex) = Raise e).
  { exists set_ex. eexists. split; [right; left; reflexivity|]. vm_compute. reflexivity. }
  apply (proj2 (proj1 (proj2 (compare_partial_failure no_loads _ Hlen Hfail)))).
  split; [vm_compute; discriminate|].
  intros a b Ha Hb. vm_compute in Ha, Hb.
  destruct Ha as [<-|[]]. destruct Hb as [<-|[]]. reflexivity.
Defined.

(** * Further properties of the code *)

(** ** Idempotence of canonicalization *)

Lemma str_ltb_asym : forall a b, str_ltb a b = true -> str_ltb b a = false.
Proof.
  intros a b H. destruct (str_ltb b a) eqn:E; [|reflexivity].
  pose proof (str_ltb_trans _ _ _ H E) as H'. now rewrite str_ltb_irrefl in H'.
Qed.

Lemma insert_item_sorted_le {A} : forall (it : pystr * A) l,
  Sorted key_le l -> Sorted key_le (insert_item it l).
Proof.
  intros it l. induction l as [|it' l IH]; intros Hs; simpl.
  - repeat constructor.
  - destruct (str_ltb (fst it') (fst it)) eqn:E.
    + inversion Hs as [|x y Hs' Hhd]; subst. constructor; [now apply IH|].
      destruct l as [|it'' l]; simpl.
      * constructor. unfold key_le. now apply str_ltb_asym.
      * inversion Hhd; subst. destruct (str_ltb (fst it'') (fst it)); constructor;
          [assumption|unfold key_le; now apply str_ltb_asym].
    + constructor; [exact Hs|]. constructor. exact E.
Qed.

Lemma sort_items_sorted_le {A} : forall l : list (pystr * A), Sorted key_le (sort_items l).
Proof. induction l; simpl; [constructor|]. now apply insert_item_sorted_le. Qed.

Lemma sort_items_id {A} : forall l : list (pystr * A), Sorted key_le l -> sort_items l = l.
Proof.
  induction l as [|it l IH]; intros Hs; simpl; [reflexivity|].
  inversion Hs as [|x y Hs' Hhd]; subst. rewrite (IH Hs').
  destruct l as [|it' l]; simpl; [reflexivity|].
  inversion Hhd; subst. unfold key_le in *. now rewrite H0.
Qed.

Lemma Sorted_key_le_keys {A B} : forall (l1 : list (pystr * A)) (l2 : list (pystr * B)),
  map fst l1 = map fst l2 -> Sorted key_le l1 -> Sorted key_le l2.
Proof.
  induction l1 as [|a l1 IH]; intros [|b l2] Hk Hs; try discriminate; [constructor|].
  simpl in Hk. injection Hk as Hab Hk'. inversion Hs as [|x y Hs' Hhd]; subst x y.
  constructor; [exact (IH _ Hk' Hs')|].
  destruct l1 as [|a' l1]; destruct l2 as [|b' l2]; try discriminate; constructor.
  inversion Hhd as [|? ? Hh]; subst. simpl in Hk'. injection Hk' as Hk1 _.
  unfold key_le in *. congruence.
Qed.

Lemma sequence_map_inv {A B} (g : A -> exc B) : forall l r,
  sequence (map g l) = Ok r -> Forall2 (fun x y => g x = Ok y) l r.
Proof.
  induction l as [|x l IH]; intros r H; simpl in H.
  - apply Ok_inj in H. subst. constructor.
  - destruct (g x) as [y|e] eqn:E; [|discriminate]. simpl in H.
    destruct (sequence (map g l)) as [r'|e] eqn:E'; [|discriminate]. simpl in H.
    apply Ok_inj in H. subst. constructor; [exact E|]. now apply IH.
Qed.

Lemma sequence_map_Ok {A} : forall l : list A, sequence (map Ok l) = Ok l.
Proof. induction l as [|x l IH]; simpl; [reflexivity|]. now rewrite IH. Qed.

Lemma sequence_items_inv {A} : forall (l : list (pystr * exc A)) r,
  sequence_items l = Ok r -> Forall2 (fun a b => fst a = fst b /\ snd a = Ok (snd b)) l r.
Proof.
  induction l as [|[k m] l IH]; intros r H; simpl in H.
  - apply Ok_inj in H. subst. constructor.
  - destruct m as [y|e]; [|discriminate]. simpl in H.
    destruct (sequence_items l) as [r'|e] eqn:E'; [|discriminate]. simpl in H.
    apply Ok_inj in H. subst. constructor; [split; reflexivity|]. now apply IH.
Qed.

Lemma sequence_items_map_Ok {A} : forall l : list (pystr * A),
  sequence_items (map (fun kv => (fst kv, Ok (snd kv))) l) = Ok l.
Proof. induction l as [|[k v] l IH]; simpl; [reflexivity|]. now rewrite IH. Qed.

Lemma Forall2_Forall_r {A B} (R : A -> B -> Prop) (P : A -> Prop) (Q : B -> Prop) :
  forall l r, Forall2 R l r -> Forall P l -> (forall a b, R a b -> P a -> Q b) -> Forall Q r.
Proof.
  intros l r H. induction H; intros HP HRQ; constructor; inversion HP; subst; eauto.
Qed.

Lemma canonicalize_value_idem : forall v v',
  canonicalize_value v = Ok v' -> canonicalize_value v' = Ok v'.
Proof.
  intros v. induction v as [| | | | |l IH|l IH|kvs IH|t] using pyval_ind'; intros v' H;
    cbn [canonicalize_value] in H; try (apply Ok_inj in H; subst; reflexivity);
    try discriminate.
  - destruct (sequence (map canonicalize_value l)) as [r|e] eqn:E; [|discriminate].
    cbn [bind] in H. apply Ok_inj in H. subst.
    pose proof (Forall2_Forall_r _ _ (fun y => canonicalize_value y = Ok y) _ _
                  (sequence_map_inv _ _ _ E) IH (fun a b Hab Ha => Ha b Hab)) as Hr.
    cbn [canonicalize_value]. rewrite (map_ext_Forall _ _ Hr), sequence_map_Ok. reflexivity.
  - destruct (sequence (map canonicalize_value l)) as [r|e] eqn:E; [|discriminate].
    cbn [bind] in H. apply Ok_inj in H. subst.
    pose proof (Forall2_Forall_r _ _ (fun y => canonicalize_value y = Ok y) _ _
                  (sequence_map_inv _ _ _ E) IH (fun a b Hab Ha => Ha b Hab)) as Hr.
    cbn [canonicalize_value]. rewrite (map_ext_Forall _ _ Hr), sequence_map_Ok. reflexivity.
  - destruct (sequence_items _) as [r|e] eqn:E; [|discriminate].
    cbn [bind] in H. apply Ok_inj in H. subst.
    rewrite sort_items_map_snd in E.
    pose proof (sequence_items_inv _ _ E) as F.
    assert (Hr : Forall (fun kv => canonicalize_value (snd kv) = Ok (snd kv)) r).
    { refine (Forall2_Forall_r _ (fun a => forall w, snd a = Ok w -> canonicalize_value w = Ok w)
                _ _ _ F _ _).
      - apply Forall_map. apply Forall_sort_items. exact IH.
      - intros a b [_ Hab] Ha. exact (Ha _ Hab). }
    assert (Hs : Sorted key_le r).
    { apply (Sorted_key_le_keys (sort_items kvs)); [|apply sort_items_sorted_le].
      rewrite (sequence_items_keys _ _ E), map_map. reflexivity. }
    cbn [canonicalize_value]. rewrite sort_items_map_snd, (sort_items_id _ Hs).
    rewrite (map_ext_Forall (fun kv => (fst kv, canonicalize_value (snd kv)))
                            (fun kv => (fst kv, Ok (snd kv)))).
    + now rewrite sequence_items_map_Ok.
    + refine (Forall_impl _ _ Hr). intros kv Hkv. cbn beta. now rewrite Hkv.
Qed.

(** ** UTF-8 encoding and the shape of SHA-256 hex digests *)

Lemma utf8_char_raise : forall c e, utf8_char c = Raise e -> e = UnicodeEncodeError /\ surrogate c.
Proof.
  intros c e H. unfold utf8_char in H.
  destruct (c <? 0x80) eqn:E1; [discriminate|].
  destruct (c <? 0x800) eqn:E2; [discriminate|].
  destruct ((0xD800 <=? c) && (c <=? 0xDFFF)) eqn:E3.
  - injection H as <-. apply andb_true_iff in E3. rewrite !Z.leb_le in E3. unfold surrogate. split; [reflexivity|lia].
  - destruct (c <? 0x10000); discriminate.
Qed.

Lemma utf8_char_surrogate : forall c, surrogate c -> utf8_char c = Raise UnicodeEncodeError.
Proof.
  intros c Hc. unfold surrogate in Hc. unfold utf8_char.
  rewrite (proj2 (Z.ltb_ge c 0x80)), (proj2 (Z.ltb_ge c 0x800)) by lia.
  replace ((0xD800 <=? c) && (c <=? 0xDFFF)) with true; [reflexivity|].
  symmetry. apply andb_true_iff. rewrite !Z.leb_le. lia.
Qed.

Lemma utf8_char_ok_iff : forall c, ~ surrogate c -> exists b, utf8_char c = Ok b.
Proof.
  intros c Hc. destruct (utf8_char c) as [b|e] eqn:E; [eauto|].
  destruct (utf8_char_raise _ _ E). contradiction.
Qed.

Lemma utf8_encode_raise : forall s,
  ((exists bs, utf8_encode s = Ok bs) <-> Forall (fun c => ~ surrogate c) s) /\
  (forall e, utf8_encode s = Raise e -> e = UnicodeEncodeError).
Proof.
  induction s as [|c s [IH1 IH2]]; simpl.
  - split; [split; [constructor|eauto]|discriminate].
  - split.
    + split.
      * intros [bs H]. destruct (utf8_char c) as [b|e] eqn:E; [|discriminate]. simpl in H.
        destruct (utf8_encode s) as [bs'|e] eqn:E'; [|discriminate].
        constructor; [|apply IH1; eauto].
        intros Hs. rewrite (utf8_char_surrogate _ Hs) in E. discriminate.
      * intros H. inversion H as [|? ? Hc Hs]; subst.
        destruct (utf8_char_ok_iff _ Hc) as [b Hb]. rewrite Hb. simpl.
        destruct (proj2 IH1 Hs) as [bs Hbs]. rewrite Hbs. simpl. eauto.
    + intros e H. destruct (utf8_char c) as [b|e'] eqn:E; simpl in H.
      * destruct (utf8_encode s) as [bs'|e'] eqn:E'; [discriminate|]. simpl in H.
        injection H as <-. now apply IH2.
      * injection H as <-. now apply (utf8_char_raise c).
Qed.

(** Lengths in the SHA-256 model. *)
Lemma be_bytes_length : forall n x, length (SHA256.be_bytes n x) = n.
Proof. induction n; intros x; simpl; [reflexivity|]. rewrite length_app, IHn. simpl. lia. Qed.

Lemma be_bytes_range : forall n x, Forall (fun b => 0 <= b < 256) (SHA256.be_bytes n x).
Proof.
  induction n; intros x; simpl; [constructor|]. apply Forall_app. split; [apply IHn|].
  constructor; [|constructor].
  change 255 with (Z.ones 8). rewrite Z.land_ones by lia. apply Z.mod_pos_bound. lia.
Qed.

Lemma round_length : forall st kw, length (SHA256.round st kw) = length st.
Proof.
  intros st kw. unfold SHA256.round.
  destruct st as [|a [|b [|c [|d [|e [|f [|g [|h [|]]]]]]]]]; reflexivity.
Qed.

Lemma fold_round_length : forall l st, length (fold_left SHA256.round l st) = length st.
Proof. induction l; intros st; simpl; [reflexivity|]. now rewrite IHl, round_length. Qed.

Lemma compress_length : forall hs b, length (SHA256.compress hs b) = length hs.
Proof.
  intros hs b. unfold SHA256.compress. rewrite length_map, length_combine, fold_round_length. lia.
Qed.

Lemma fold_compress_length : forall l hs, length (fold_left SHA256.compress l hs) = length hs.
Proof. induction l; intros hs; simpl; [reflexivity|]. now rewrite IHl, compress_length. Qed.

Lemma flat_map_be_bytes_length : forall l,
  length (flat_map (SHA256.be_bytes 4) l) = (4 * length l)%nat.
Proof. induction l; cbn [flat_map]; [reflexivity|]. rewrite length_app, be_bytes_length, IHl. cbn [length]. lia. Qed.

Lemma digest_shape : forall msg,
  length (SHA256.digest msg) = 32%nat /\ Forall (fun b => 0 <= b < 256) (SHA256.digest msg).
Proof.
  intros msg. unfold SHA256.digest. split.
  - cbv zeta. rewrite flat_map_be_bytes_length, fold_compress_length. reflexivity.
  - apply Forall_flat_map. apply Forall_forall. intros; apply be_bytes_range.
Qed.


Lemma hex_digit_lower : forall d, 0 <= d < 16 -> hex_lower (hex_digit d).
Proof. intros d Hd. unfold hex_digit, hex_lower. destruct (d <? 10) eqn:E; lia. Qed.

Lemma hexdigest_shape : forall bs, Forall (fun b => 0 <= b < 256) bs ->
  length (hexdigest bs) = (2 * length bs)%nat /\ Forall hex_lower (hexdigest bs).
Proof.
  induction bs as [|b bs IH]; intros H; simpl; [split; [reflexivity|constructor]|].
  inversion H as [|? ? Hb Hbs]; subst. destruct (IH Hbs) as [IH1 IH2]. split.
  - rewrite IH1. lia.
  - constructor; [|constructor; [|exact IH2]]; apply hex_digit_lower.
    + rewrite Z.shiftr_div_pow2 by lia. split; [apply Z.div_pos; lia|].
      apply Z.div_lt_upper_bound; lia.
    + change 15 with (Z.ones 4). rewrite Z.land_ones by lia. apply Z.mod_pos_bound. lia.
Qed.

Lemma sha256_hex_shape : forall text h, sha256_hex text = Ok h ->
  length h = 64%nat /\ Forall hex_lower h.
Proof.
  intros text h H. unfold sha256_hex in H. destruct (utf8_encode text) as [bs|e]; [|discriminate].
  simpl in H. apply Ok_inj in H. subst h. destruct (digest_shape bs) as [L F].
  destruct (hexdigest_shape _ F) as [L' F']. split; [rewrite L', L; reflexivity|exact F'].
Qed.

Lemma canonicalize_value_not_str : forall v v', canonicalize_value v = Ok v' ->
  (forall s, v <> PStr s) -> forall s, v' <> PStr s.
Proof.
  intros v v' H Hv s ->. destruct v; cbn [canonicalize_value] in H.
  - discriminate.
  - discriminate.
  - discriminate.
  - discriminate.
  - exact (Hv _ eq_refl).
  - destruct (sequence (map canonicalize_value l)); discriminate.
  - destruct (sequence (map canonicalize_value l)); discriminate.
  - destruct (sequence_items _); discriminate.
  - discriminate.
Qed.

(** X1. Canonicalization is idempotent: when canonicalize_value turns v into v',
    canonicalizing v' gives v' back. For a v that is not a str,
    canonicalize_json gives the same string on v' as on v. *)
Theorem canonicalize_json_idempotent : forall loads v v',
  canonicalize_value v = Ok v' ->
  canonicalize_value v' = Ok v' /\
  ((forall s, v <> PStr s) -> canonicalize_json loads v' = canonicalize_json loads v).
Proof.
  intros loads v v' H. split; [exact (canonicalize_value_idem _ _ H)|].
  intros Hv. pose proof (canonicalize_value_not_str _ _ H Hv) as Hv'.
  unfold canonicalize_json.
  replace (match v' with PStr s => loads s | _ => Ok v' end) with (Ok (A:=pyval) v')
    by (destruct v'; try reflexivity; exfalso; exact (Hv' _ eq_refl)).
  replace (match v with PStr s => loads s | _ => Ok v end) with (Ok (A:=pyval) v)
    by (destruct v; try reflexivity; exfalso; exact (Hv _ eq_refl)).
  cbn [bind]. rewrite H, (canonicalize_value_idem _ _ H). reflexivity.
Qed.

(** X2. Every hash that compute_canonical_hash returns is 64 characters long.
    Every character is a lowercase hex digit (0-9, a-f). *)
Theorem compute_canonical_hash_shape : forall loads data h,
  compute_canonical_hash loads data = Ok h ->
  length h = 64%nat /\ Forall hex_lower h.
Proof.
  intros loads data h H. unfold compute_canonical_hash in H.
  destruct (canonicalize_json loads data) as [c|e]; [|discriminate].
  exact (sha256_hex_shape _ _ H).
Qed.

(** X3. Once canonicalize_json has produced a text, compute_canonical_hash
    succeeds exactly when that text holds no surrogate code point (U+D800 to
    U+DFFF). Otherwise it raises UnicodeEncodeError, and it raises nothing else. *)
Theorem compute_canonical_hash_surrogate : forall loads data c,
  canonicalize_json loads data = Ok c ->
  ((exists h, compute_canonical_hash loads data = Ok h) <-> Forall (fun x => ~ surrogate x) c) /\
  (forall e, compute_canonical_hash loads data = Raise e -> e = UnicodeEncodeError).
Proof.
  intros loads data c H. unfold compute_canonical_hash. rewrite H. cbn [bind].
  unfold sha256_hex. destruct (utf8_encode_raise c) as [H1 H2]. split.
  - rewrite <- H1. split.
    + intros [h Hh]. destruct (utf8_encode c) as [bs|e]; [eauto|discriminate].
    + intros [bs Hbs]. rewrite Hbs. cbn [bind]. eauto.
  - intros e He. destruct (utf8_encode c) as [bs|e'] eqn:E; [discriminate|].
    cbn [bind] in He. injection He as <-. now apply H2.
Qed.

Lemma compute_canonical_hash_surrogate_witness :
  canonicalize_json no_loads (PList [PStr [0xD800]]) = Ok [91; 34; 0xD800; 34; 93] /\
  ~ (exists h, compute_canonical_hash no_loads (PList [PStr [0xD800]]) = Ok h).
Proof.
  assert (Hc : canonicalize_json no_loads (PList [PStr [0xD800]]) = Ok [91; 34; 0xD800; 34; 93])
    by reflexivity.
  split; [exact Hc|].
  rewrite (proj1 (compute_canonical_hash_surrogate _ _ _ Hc)).
  intros F. rewrite Forall_forall in F. apply (F 0xD800); [simpl; tauto|].
  unfold surrogate. lia.
Defined.

(** ** The comparator result as a dict *)

Lemma hash_partition : forall loads (l : list (nat * execution)),
  Permutation (map execution_index (hash_errors loads l) ++ map (fun h => fst (fst h)) (hashed loads l))
              (map fst l).
Proof.
  intros loads l. induction l as [|[i ex] l IH]; [constructor|].
  unfold hashed, hash_errors in *. cbn [flat_map fst snd map].
  destruct (compute_canonical_hash loads (get_outputs ex)); cbn [app map execution_index fst].
  - apply Permutation_sym. eapply perm_trans; [apply perm_skip, Permutation_sym, IH|].
    apply Permutation_middle.
  - now apply perm_skip.
Qed.

Lemma map_fst_enumerate {A} : forall l : list A, map fst (enumerate l) = seq 0 (length l).
Proof.
  intros l. unfold enumerate. generalize 0%nat.
  induction l as [|a l IH]; intros k; simpl; [reflexivity|]. now rewrite IH.
Qed.

Lemma hashed_index_map : forall hs : list (nat * pystr * pyval),
  map execution_index (map (fun h => let '(i, hv, o) := h in DHash i hv o) hs) =
  map (fun h => fst (fst h)) hs.
Proof. intros hs. rewrite map_map. apply map_ext. intros [[i hv] o]. reflexivity. Qed.

Lemma compare_discrepancy_count : forall loads execs,
  let r := compare loads execs in
  (consensus_reached r = false ->
     Permutation (map execution_index (discrepancies r)) (seq 0 (length execs))) /\
  (consensus_reached r = true -> (length (discrepancies r) < length execs)%nat).
Proof.
  intros loads execs. cbv zeta.
  destruct execs as [|e0 [|e1 rest]].
  - split; intros H; [constructor|discriminate].
  - split; intros H; [discriminate|simpl; lia].
  - set (execs := e0 :: e1 :: rest).
    pose proof (hash_partition loads (enumerate execs)) as P.
    rewrite map_fst_enumerate in P.
    pose proof (Permutation_length P) as L. rewrite length_app, !length_map, length_seq in L.
    rewrite compare_many by (simpl; lia).
    destruct (hashed loads (enumerate execs)) as [|h0 t] eqn:Eh.
    + split; intros H; [|discriminate]. cbn [discrepancies]. simpl in P. now rewrite app_nil_r in P.
    + destruct (Nat.eqb _ 1); split; intros H; try discriminate; cbn [discrepancies].
      * try rewrite Eh in L. cbn [length] in L. lia.
      * rewrite map_app, hashed_index_map. first [exact P | rewrite Eh; exact P].
Qed.

Lemma perm_seq_length : forall l n, Permutation l (seq 0 n) -> length l = n.
Proof. intros l n P. rewrite (Permutation_length P). apply length_seq. Qed.

Lemma to_dict_fields : forall execs r,
  let d := dict_of (ComparisonResult.to_dict execs r) in
  dict_get d (lit "num_discrepancies") PNone = PInt (Z.of_nat (length (discrepancies r))) /\
  dict_get d (lit "num_executions") PNone = PInt (Z.of_nat (length execs)) /\
  dict_get d (lit "consensus_reached") PNone = PBool (consensus_reached r).
Proof. intros execs r. split; [|split]; reflexivity. Qed.

(** X8. In ComparisonResult.to_dict, num_discrepancies equals num_executions
    exactly when consensus_reached is False. Without consensus, the
    execution_index values of the discrepancies are a permutation of 0..n-1, one
    entry per execution. *)
Theorem to_dict_discrepancy_count : forall loads execs,
  let d := dict_of (ComparisonResult.to_dict execs (compare loads execs)) in
  (dict_get d (lit "num_discrepancies") PNone = dict_get d (lit "num_executions") PNone <->
   dict_get d (lit "consensus_reached") PNone = PBool false) /\
  (dict_get d (lit "consensus_reached") PNone = PBool false ->
   Permutation (map execution_index (discrepancies (compare loads execs)))
               (seq 0 (length execs))).
Proof.
  intros loads execs. cbv zeta.
  destruct (to_dict_fields execs (compare loads execs)) as [F1 [F2 F3]]. cbv zeta in F1, F2, F3.
  rewrite F1, F2, F3.
  destruct (compare_discrepancy_count loads execs) as [C1 C2]. cbv zeta in C1, C2.
  destruct (consensus_reached (compare loads execs)).
  - split; [|discriminate]. split; [|discriminate]. intros E. injection E as E.
    apply Nat2Z.inj in E. specialize (C2 eq_refl). lia.
  - split; [|auto]. split; [reflexivity|]. intros _.
    pose proof (perm_seq_length _ _ (C1 eq_refl)) as Hl. rewrite length_map in Hl. rewrite Hl. reflexivity.
Qed.

(** ** [verify_canonicalization] and [validate_against_canon] *)

Lemma canon_dumps_raise : forall v e,
  (v' <- canonicalize_value v ;; dumps v') = Raise e -> unsupported_error e.
Proof.
  intros v e H. pose proof (canonicalize_value_outcome v) as Hc. unfold canon_outcome in Hc.
  destruct (canonicalize_value v) as [v'|e'] eqn:E; cbn [bind] in H.
  - destruct (dumps_ok v' (proj2 Hc)) as [s Hs]. congruence.
  - injection H as <-. tauto.
Qed.

Lemma canonicalize_json_raise : forall loads v e,
  canonicalize_json loads v = Raise e ->
  unsupported_error e \/ exists s, v = PStr s /\ loads s = Raise e.
Proof.
  intros loads v e H. unfold canonicalize_json in H.
  destruct v as [| | | |p| | | |]; cbn [bind] in H; try (left; exact (canon_dumps_raise _ _ H)).
  destruct (loads p) as [d|e'] eqn:E; cbn [bind] in H.
  - left. exact (canon_dumps_raise _ _ H).
  - right. exists p. split; [reflexivity|]. rewrite E. injection H as ->. reflexivity.
Qed.

Lemma dict_get_missing : forall d k def, ~ In k (map fst d) -> dict_get d k def = def.
Proof.
  induction d as [|[k' v] d IH]; intros k def Hk; [reflexivity|].
  cbn [dict_get]. destruct (list_eq_dec Z.eq_dec k k') as [->|Hne].
  - exfalso. apply Hk. now left.
  - apply IH. intros Hin. apply Hk. now right.
Qed.

Lemma pystr_eqb_refl : forall a, pystr_eqb a a = true.
Proof. intros a. unfold pystr_eqb. destruct (list_eq_dec Z.eq_dec a a); congruence. Qed.

(** X4. verify_canonicalization does not raise when json.loads, on each of
    the two texts and on the string a text decodes to (which
    canonicalize_json decodes again), raises only ValueError
    (JSONDecodeError is one) or returns a value nested at most
    [max_nesting] deep. Every failure, including an unsupported type,
    becomes False. *)
Theorem verify_canonicalization_no_raise : forall loads original canonical,
  loads_within loads original -> loads_within loads canonical ->
  (forall s, loads original = Ok (PStr s) -> loads_within loads s) ->
  (forall s, loads canonical = Ok (PStr s) -> loads_within loads s) ->
  exists b, verify_canonicalization loads original canonical = Ok b.
Proof.
  intros loads o c Hl1 Hl2 Hs1 Hs2. unfold verify_canonicalization.
  assert (Hcj : forall v e, (forall s, v = PStr s -> loads_within loads s) ->
            canonicalize_json loads v = Raise e -> exists m, e = ValueError m).
  { intros v e Hv He. destruct (canonicalize_json_raise _ _ _ He) as [[t ->]|[s [-> Hs]]];
      [eauto|]. specialize (Hv s eq_refl). unfold loads_within in Hv. now rewrite Hs in Hv. }
  unfold loads_within in Hl1, Hl2.
  destruct (loads o) as [od|e] eqn:E1; cbn [bind]; [|destruct Hl1 as [m ->]; eauto].
  destruct (loads c) as [cd|e] eqn:E2; cbn [bind]; [|destruct Hl2 as [m ->]; eauto].
  destruct (canonicalize_json loads od) as [ro|e] eqn:E3; cbn [bind].
  2:{ destruct (Hcj od e (fun s Hs => Hs1 s (eq_trans eq_refl (f_equal Ok Hs))) E3)
        as [m ->]. eauto. }
  destruct (canonicalize_json loads cd) as [rc|e] eqn:E4; cbn [bind].
  2:{ destruct (Hcj cd e (fun s Hs => Hs2 s (eq_trans eq_refl (f_equal Ok Hs))) E4)
        as [m ->]. eauto. }
  eauto.
Qed.

Lemma verify_canonicalization_no_raise_witness :
  exists b, verify_canonicalization dict_ab_loads (lit "A") (lit "B") = Ok b.
Proof.
  apply (verify_canonicalization_no_raise dict_ab_loads (lit "A") (lit "B")).
  - vm_compute. lia.
  - vm_compute. lia.
  - intros s Hs. vm_compute in Hs. discriminate Hs.
  - intros s Hs. vm_compute in Hs. discriminate Hs.
Defined.

(** X5. verify_canonicalization returns True when the two texts decode to dicts
    with the same items in another order. The keys must be distinct, the
    values of supported types, and the dict nested at most [max_nesting]
    deep (the other dict, with the same items, is nested as deep). *)
Theorem verify_canonicalization_key_order : forall loads original canonical kvs kvs',
  loads original = Ok (PDict kvs) -> loads canonical = Ok (PDict kvs') ->
  NoDup (map fst kvs) -> Permutation kvs kvs' -> supported (PDict kvs) = true ->
  (depth (PDict kvs) <= max_nesting)%nat ->
  verify_canonicalization loads original canonical = Ok true.
Proof.
  intros loads o c kvs kvs' Ho Hc Hnd Hp Hs _. unfold verify_canonicalization.
  rewrite Ho, Hc. cbn [bind]. unfold canonicalize_json. cbn [bind].
  rewrite <- (canonicalize_value_dict_perm kvs kvs' Hnd Hp).
  pose proof (canonicalize_value_outcome (PDict kvs)) as Hcv. unfold canon_outcome in Hcv.
  destruct (canonicalize_value (PDict kvs)) as [v'|e]; [|destruct Hcv; congruence].
  cbn [bind]. destruct (dumps_ok v' (proj2 Hcv)) as [s Hd]. rewrite Hd. cbn [bind].
  now rewrite pystr_eqb_refl.
Qed.


Lemma verify_canonicalization_key_order_witness :
  verify_canonicalization dict_ab_loads (lit "A") (lit "B") = Ok true.
Proof.
  apply (verify_canonicalization_key_order dict_ab_loads (lit "A") (lit "B")
           [(lit "a", PInt 1); (lit "b", PInt 2)] [(lit "b", PInt 2); (lit "a", PInt 1)]).
  - reflexivity.
  - reflexivity.
  - repeat constructor; simpl; intuition discriminate.
  - apply perm_swap.
  - reflexivity.
  - vm_compute. lia.
Defined.

Lemma validate_against_canon_same : forall loads result canon_spec c,
  canonicalize_json loads (dict_get result (lit "outputs") (PDict [])) = Ok c ->
  canonicalize_json loads (dict_get canon_spec (lit "expected_output") (PDict [])) = Ok c ->
  (Forall (fun x => ~ surrogate x) c ->
   validate_against_canon loads result canon_spec =
     (true, lit "Output matches canonical specification")) /\
  (~ Forall (fun x => ~ surrogate x) c ->
   validate_against_canon loads result canon_spec =
     (false, lit "Validation error: " ++ exn_str UnicodeEncodeError)).
Proof.
  intros loads result spec c H1 H2. unfold validate_against_canon, compute_canonical_hash.
  rewrite H1, H2. cbn [bind]. unfold sha256_hex.
  destruct (utf8_encode_raise c) as [U1 U2]. split; intros Hf.
  - destruct (proj2 U1 Hf) as [bs Hbs]. rewrite Hbs. cbn [bind]. now rewrite pystr_eqb_refl.
  - destruct (utf8_encode c) as [bs|e] eqn:E.
    + exfalso. apply Hf, U1. eauto.
    + rewrite (U2 e eq_refl). reflexivity.
Qed.

(** X6. validate_against_canon compares result['outputs'] with
    canon_spec['expected_output']. When both canonicalize to the same text, it
    returns (True, 'Output matches canonical specification') if the text has no
    surrogate code point. Otherwise it returns (False, 'Validation error: ...')
    for the UnicodeEncodeError. *)
Theorem validate_against_canon_same_text : forall loads result canon_spec c,
  canonicalize_json loads (dict_get result (lit "outputs") (PDict [])) = Ok c ->
  canonicalize_json loads (dict_get canon_spec (lit "expected_output") (PDict [])) = Ok c ->
  (Forall (fun x => ~ surrogate x) c ->
   validate_against_canon loads result canon_spec =
     (true, lit "Output matches canonical specification")) /\
  (~ Forall (fun x => ~ surrogate x) c ->
   validate_against_canon loads result canon_spec =
     (false, lit "Validation error: " ++ exn_str UnicodeEncodeError)).
Proof. exact validate_against_canon_same. Qed.

(** ** What the Pydantic gate guarantees *)

Lemma as_list_Forall {A} (elem : pyval -> option A) (P : A -> Prop) :
  (forall x a, elem x = Some a -> P a) ->
  forall v l, as_list elem v = Some l -> Forall P l.
Proof.
  intros Helem v. destruct v; intros r H; cbn [as_list] in H; try discriminate;
  (revert r H; induction l as [|x l IH]; intros r H;
   [cbn [fold_right] in H; apply some_inj in H; subst; constructor|];
   cbn [fold_right] in H;
   destruct (elem x) as [a|] eqn:Ea; [|discriminate];
   destruct (fold_right _ (Some []) l) as [r'|] eqn:Er; [|discriminate];
   apply some_inj in H; subst r; constructor; [exact (Helem _ _ Ea)|exact (IH _ eq_refl)]).
Qed.

Lemma int_ge_ok : forall pi lo v z, int_ge pi lo v = Some z -> lo <= z.
Proof.
  unfold int_ge. intros pi lo v z H. destruct (as_int pi v) as [y|]; [|discriminate].
  destruct (y <? lo) eqn:E; [discriminate|]. apply some_inj in H. subst. lia.
Qed.

Lemma span_model_bounds : forall pi v sp, span_model pi v = Some sp ->
  0 <= Span.start sp /\ 0 <= Span.end_ sp.
Proof.
  intros pi v sp H. unfold span_model in H. peel H. apply some_inj in H. subst sp.
  cbn [Span.start Span.end_].
  destruct (required_some _ _ _ _ E1) as [x [_ Hx]]. destruct (required_some _ _ _ _ E2) as [y [_ Hy]].
  split; eapply int_ge_ok; eassumption.
Qed.

Lemma supporting_source_model_ok : forall pf v s, supporting_source_model pf v = Some s ->
  float_ok 0 1 (SupportingSource.authority_score s).
Proof.
  intros pf v s H. unfold supporting_source_model in H. peel H. apply some_inj in H. subst s.
  eapply required_float_ok. eassumption.
Qed.

Lemma verdict_str_ok : forall v s, verdict_str v = Some s ->
  In s [lit "JA"; lit "WEAK_MATCH"; lit "NO_MATCH"].
Proof.
  intros v s H. unfold verdict_str in H. destruct (as_str v) as [t|]; [|discriminate].
  cbv beta iota in H. destruct (verdict_pattern t) eqn:E; [|discriminate]. apply some_inj in H. subst t.
  unfold verdict_pattern, str_in in E. apply existsb_exists in E. destruct E as [w [Hw Hs]].
  destruct (list_eq_dec Z.eq_dec s (lit w)) as [->|]; [|discriminate].
  simpl in Hw. destruct Hw as [<-|[<-|[<-|[]]]]; simpl; auto.
Qed.

Lemma tampa_output_model_spans : forall pf pi d o, tampa_output_model pf pi d = Some o ->
  Forall (fun sp => 0 <= Span.start sp /\ 0 <= Span.end_ sp) (TampaOutput.matched_spans o).
Proof.
  intros pf pi d o H. unfold tampa_output_model in H. peel H. apply some_inj in H. subst o.
  cbn [TampaOutput.matched_spans]. destruct (required_some _ _ _ _ E0) as [v [_ Hv]].
  exact (as_list_Forall _ _ (span_model_bounds pi) _ _ Hv).
Qed.

(** X10. A record accepted by the TampaOutput model has verdict_hint JA,
    WEAK_MATCH or NO_MATCH. Its tampa_sigma is between 0 and 12, every matched
    span has start >= 0 and end >= 0, and every supporting source has
    authority_score in [0, 1]. *)
Theorem tampa_output_model_constraints : forall pf pi d o,
  tampa_output_model pf pi d = Some o ->
  In (TampaOutput.verdict_hint o) [lit "JA"; lit "WEAK_MATCH"; lit "NO_MATCH"] /\
  0 <= TampaOutput.tampa_sigma o <= 12 /\
  Forall (fun sp => 0 <= Span.start sp /\ 0 <= Span.end_ sp) (TampaOutput.matched_spans o) /\
  Forall (fun s => in_range 0 1 (SupportingSource.authority_score s) = true)
         (TampaOutput.supporting_sources o).
Proof.
  intros pf pi d o H. pose proof (tampa_output_model_spans _ _ _ _ H) as Hsp.
  unfold tampa_output_model in H. peel H. apply some_inj in H. subst o.
  cbn [TampaOutput.verdict_hint TampaOutput.tampa_sigma TampaOutput.matched_spans
       TampaOutput.supporting_sources] in *.
  split; [|split; [|split; [exact Hsp|]]].
  - destruct (required_some _ _ _ _ E) as [v [_ Hv]]. exact (verdict_str_ok _ _ Hv).
  - destruct (required_some _ _ _ _ E8) as [v [_ Hv]].
    destruct (as_int pi v) as [zz|]; [|discriminate]. cbv beta iota in Hv.
    destruct ((zz <? 0) || (12 <? zz)) eqn:Ez; [discriminate|]. apply some_inj in Hv. subst.
    apply orb_false_iff in Ez. rewrite !Z.ltb_ge in Ez. lia.
  - unfold optional in E1. destruct (field d (lit "supporting_sources")) as [v|].
    + exact (as_list_Forall _ _ (supporting_source_model_ok pf) _ _ E1).
    + apply some_inj in E1. subst. constructor.
Qed.

Lemma tampa_output_model_constraints_witness :
  exists o, tampa_output_model no_parse_float no_parse_int
              (tampa_ex 0.9 0.9 0.8 [span_ex "test" 10 14]) = Some o /\
  In (TampaOutput.verdict_hint o) [lit "JA"; lit "WEAK_MATCH"; lit "NO_MATCH"] /\
  0 <= TampaOutput.tampa_sigma o <= 12.
Proof.
  destruct (tampa_output_model no_parse_float no_parse_int
              (tampa_ex 0.9 0.9 0.8 [span_ex "test" 10 14])) as [o|] eqn:E.
  - exists o. split; [reflexivity|].
    destruct (tampa_output_model_constraints _ _ _ _ E) as [H1 [H2 _]]. split; assumption.
  - vm_compute in E. discriminate.
Defined.

(** ** Soundness of the validator *)

Lemma pystr_eqb_true : forall a b, pystr_eqb a b = true -> a = b.
Proof. unfold pystr_eqb. intros a b H. destruct (list_eq_dec Z.eq_dec a b); congruence. Qed.

Lemma check_spans_none : forall text h spans idx,
  check_spans text h idx spans = None ->
  Forall (fun sp => 0 <= Span.start sp <= Span.end_ sp /\ Span.end_ sp <= Z.of_nat (length text) /\
                    firstn (Z.to_nat (Span.end_ sp - Span.start sp))
                           (skipn (Z.to_nat (Span.start sp)) text) = Span.text sp /\
                    Span.drhash sp = h) spans.
Proof.
  intros text h spans. induction spans as [|sp rest IH]; intros idx H; [constructor|].
  cbn [check_spans] in H.
  destruct (Span.start sp <? 0) eqn:E1; [discriminate|].
  destruct (Span.end_ sp <? Span.start sp) eqn:E2; [discriminate|].
  destruct ((Z.of_nat (length text) <? Span.start sp) || (Z.of_nat (length text) <? Span.end_ sp))
    eqn:E3; [discriminate|].
  apply orb_false_iff in E3. rewrite !Z.ltb_ge in E1, E2, E3.
  destruct (pystr_eqb (py_slice text (Span.start sp) (Span.end_ sp)) (Span.text sp)) eqn:E4;
    [|discriminate].
  destruct (pystr_eqb (Span.drhash sp) h) eqn:E5; [|discriminate].
  cbv beta iota in H. constructor; [|exact (IH _ H)].
  apply pystr_eqb_true in E4, E5. rewrite py_slice_in_bounds in E4 by lia.
  repeat split; try lia; assumption.
Qed.

Lemma check_spans_codes : forall text h spans idx e,
  Forall (fun sp => 0 <= Span.start sp) spans ->
  check_spans text h idx spans = Some e ->
  (forall i, e <> span_invalid_type i) /\ (forall i, e <> span_invalid_range i (lit "start<0")).
Proof.
  intros text h spans. induction spans as [|sp rest IH]; intros idx e Hs H; [discriminate|].
  inversion Hs as [|? ? Hsp Hrest]; subst. cbn [check_spans] in H.
  rewrite (proj2 (Z.ltb_ge _ 0) Hsp) in H.
  repeat match type of H with
  | (if ?c then _ else _) = _ =>
      destruct c; [apply some_inj in H; subst e; split; intros i Hi; discriminate Hi|]
  end.
  exact (IH _ _ Hrest H).
Qed.

Lemma check_provenance_codes : forall o e, check_provenance o = Some e ->
  (exists a b, e = provenance_mismatch a b) \/ (exists f v, e = provenance_out_of_range f v).
Proof.
  intros o e H. unfold check_provenance in H.
  repeat match type of H with
  | (if ?c then _ else _) = _ =>
      destruct c; [apply some_inj in H; subst e; eauto|]
  end.
  discriminate.
Qed.

(** X11. When validate_tampa_output returns valid, the record passed the model
    and the provenance checks, and internal.drhash is the SHA-256 hex of the
    canonical text. Every matched span has 0 <= start <= end <= len(text),
    text[start:end] equal to its text, and its drhash equal to that same hash. *)
Theorem validate_valid_sound : forall pf pi d text,
  validate_tampa_output pf pi d text = Ok Valid ->
  exists o h, tampa_output_model pf pi d = Some o /\ check_provenance o = None /\
    sha256_hex text = Ok h /\ Internal.drhash (TampaOutput.internal o) = h /\
    Forall (fun sp => 0 <= Span.start sp <= Span.end_ sp /\
                      Span.end_ sp <= Z.of_nat (length text) /\
                      firstn (Z.to_nat (Span.end_ sp - Span.start sp))
                             (skipn (Z.to_nat (Span.start sp)) text) = Span.text sp /\
                      Span.drhash sp = h) (TampaOutput.matched_spans o).
Proof.
  intros pf pi d text H. destruct (tampa_output_model pf pi d) as [o|] eqn:Hm.
  2:{ rewrite (validate_gate_fail _ _ _ _ Hm) in H. discriminate. }
  rewrite (validate_gate_ok _ _ _ _ _ Hm) in H.
  destruct (check_provenance o) as [e|] eqn:Hc; [discriminate|].
  destruct (sha256_hex text) as [h|x] eqn:Hh; cbn [bind] in H; [|discriminate].
  destruct (pystr_eqb (Internal.drhash (TampaOutput.internal o)) h) eqn:Hd; cbn [negb] in H;
    [|discriminate].
  destruct (check_spans text h 0 (TampaOutput.matched_spans o)) eqn:Hs; [discriminate|].
  exists o, h. repeat split; try assumption.
  - exact (pystr_eqb_true _ _ Hd).
  - exact (check_spans_none _ _ _ _ Hs).
Qed.

Lemma validate_valid_sound_witness :
  validate_ex (tampa_ex 0.9 0.9 0.8 [span_ex "test" 10 14]) = Ok Valid /\
  exists o h, tampa_output_model no_parse_float no_parse_int
                (tampa_ex 0.9 0.9 0.8 [span_ex "test" 10 14]) = Some o /\
              sha256_hex doc_text = Ok h /\ Internal.drhash (TampaOutput.internal o) = h.
Proof.
  assert (H : validate_ex (tampa_ex 0.9 0.9 0.8 [span_ex "test" 10 14]) = Ok Valid)
    by (vm_compute; reflexivity).
  split; [exact H|].
  destruct (validate_valid_sound _ _ _ _ H) as [o [h [H1 [_ [H3 [H4 _]]]]]].
  exists o, h. split; [exact H1|]. split; assumption.
Defined.

(** X12. validate_tampa_output never returns missing_top_field: the model
    already requires those five fields. After the model, a span's start is an
    int >= 0, so it never returns span_invalid_type or span_invalid_range with
    start<0. *)
Theorem validate_never_reports : forall pf pi d text e,
  validate_tampa_output pf pi d text = Ok (Invalid e) ->
  (forall f, e <> missing_top_field f) /\ (forall i, e <> span_invalid_type i) /\
  (forall i, e <> span_invalid_range i (lit "start<0")).
Proof.
  intros pf pi d text e H. destruct (tampa_output_model pf pi d) as [o|] eqn:Hm.
  2:{ rewrite (validate_gate_fail _ _ _ _ Hm) in H. apply Invalid_inj in H. subst e.
      repeat split; intros ? X; discriminate X. }
  destruct (check_provenance o) as [e'|] eqn:Hc.
  - rewrite (validate_gate_ok _ _ _ _ _ Hm), Hc in H. apply Invalid_inj in H. subst e'.
    destruct (check_provenance_codes _ _ Hc) as [[a [b ->]]|[f [v ->]]];
      repeat split; intros ? X; discriminate X.
  - pose proof (validate_after_provenance _ _ _ _ _ _ Hm Hc H) as [[h [g ->]]|Hspan].
    + repeat split; intros ? X; discriminate X.
    + rewrite (validate_gate_ok _ _ _ _ _ Hm), Hc in H.
      destruct (sha256_hex text) as [h|x]; cbn [bind] in H; [|discriminate].
      destruct (negb _); [apply Invalid_inj in H; subst e; discriminate Hspan|].
      destruct (check_spans _ _ _ _) as [e'|] eqn:Hs; [|discriminate].
      apply Invalid_inj in H. subst e'.
      assert (Hst : Forall (fun sp => 0 <= Span.start sp) (TampaOutput.matched_spans o)).
      { eapply Forall_impl; [|exact (tampa_output_model_spans _ _ _ _ Hm)]. simpl. tauto. }
      destruct (check_spans_codes _ _ _ _ _ Hst Hs) as [C1 C2].
      split; [intros f X; subst e; discriminate Hspan|]. split; assumption.
Qed.

Lemma validate_never_reports_witness :
  validate_ex (tampa_ex 0.9 0.9 0.8 [span_ex "test" 0 4]) =
    Ok (Invalid (span_text_mismatch 0 (lit "test") (lit "This"))) /\
  forall f, span_text_mismatch 0 (lit "test") (lit "This") <> missing_top_field f.
Proof.
  assert (H : validate_ex (tampa_ex 0.9 0.9 0.8 [span_ex "test" 0 4]) =
              Ok (Invalid (span_text_mismatch 0 (lit "test") (lit "This"))))
    by (vm_compute; reflexivity).
  split; [exact H|]. exact (proj1 (validate_never_reports _ _ _ _ _ H)).
Defined.

(** X13. validate_tampa_output returns a result whenever the canonical text has
    no surrogate code point. It raises only UnicodeEncodeError, and only after
    the model and provenance checks pass, on a text with a surrogate. *)
Theorem validate_raise : forall pf pi d text,
  (Forall (fun c => ~ surrogate c) text -> exists r, validate_tampa_output pf pi d text = Ok r) /\
  (forall e, validate_tampa_output pf pi d text = Raise e ->
     e = UnicodeEncodeError /\
     exists o, tampa_output_model pf pi d = Some o /\ check_provenance o = None /\
               ~ Forall (fun c => ~ surrogate c) text).
Proof.
  intros pf pi d text. destruct (utf8_encode_raise text) as [U1 U2].
  destruct (tampa_output_model pf pi d) as [o|] eqn:Hm.
  2:{ rewrite (validate_gate_fail _ _ _ _ Hm). split; [eauto|discriminate]. }
  rewrite (validate_gate_ok _ _ _ _ _ Hm).
  destruct (check_provenance o) as [e|] eqn:Hc; [split; [eauto|discriminate]|].
  unfold sha256_hex. split.
  - intros Hf. destruct (proj2 U1 Hf) as [bs Hbs]. rewrite Hbs. cbn [bind].
    destruct (negb _); [eauto|]. destruct (check_spans _ _ _ _); eauto.
  - intros e He. destruct (utf8_encode text) as [bs|x] eqn:E; cbn [bind] in He.
    + destruct (negb _); [discriminate|]. destruct (check_spans _ _ _ _); discriminate.
    + injection He as <-. split; [exact (U2 _ eq_refl)|]. exists o. split; [first [reflexivity|exact Hm]|].
      split; [first [reflexivity|exact Hc]|]. intros Hf. destruct (proj2 U1 Hf) as [bs Hbs]. congruence.
Qed.

(** ** Consensus and the order of executions *)

Lemma compare_consensus_iff : forall loads execs, (2 <= length execs)%nat ->
  (consensus_reached (compare loads execs) = true <->
   (exists ex h, In ex execs /\ compute_canonical_hash loads (get_outputs ex) = Ok h) /\
   (forall ex1 ex2 h1 h2, In ex1 execs -> In ex2 execs ->
      compute_canonical_hash loads (get_outputs ex1) = Ok h1 ->
      compute_canonical_hash loads (get_outputs ex2) = Ok h2 -> h1 = h2)).
Proof.
  intros loads execs Hlen. rewrite compare_many by exact Hlen.
  assert (Hh : forall ex h, In ex execs -> compute_canonical_hash loads (get_outputs ex) = Ok h ->
                 exists i, In (i, h, get_outputs ex) (hashed loads (enumerate execs))).
  { intros ex h Hin Hc. destruct (in_enumerate_ex _ _ Hin) as [i Hi]. exists i.
    apply in_hashed. eauto. }
  assert (Hh' : forall i h o, In (i, h, o) (hashed loads (enumerate execs)) ->
                  exists ex, In ex execs /\ compute_canonical_hash loads (get_outputs ex) = Ok h).
  { intros i h o Hin. apply in_hashed in Hin. destruct Hin as [ex [Hi [Hc _]]].
    exists ex. split; [exact (in_enumerate_inv _ _ _ Hi)|exact Hc]. }
  destruct (hashed loads (enumerate execs)) as [|h0 t] eqn:Eh.
  - cbn [consensus_reached]. split; [discriminate|]. intros [[ex [h [Hin Hc]]] _].
    destruct (Hh _ _ Hin Hc) as [i []].
  - assert (Hne : h0 :: t <> []) by discriminate.
    destruct (Nat.eqb (n_unique (h0 :: t)) 1) eqn:En; cbn [consensus_reached].
    + apply Nat.eqb_eq in En. rewrite (n_unique_one _ Hne) in En. split; [intros _|reflexivity].
      split.
      * destruct h0 as [[i h] o]. destruct (Hh' i h o (or_introl eq_refl)) as [ex [Hin Hc]]. eauto.
      * intros ex1 ex2 h1 h2 H1 H2 C1 C2.
        destruct (Hh _ _ H1 C1) as [i1 I1]. destruct (Hh _ _ H2 C2) as [i2 I2].
        exact (En _ _ I1 I2).
    + split; [discriminate|]. intros [_ Hall]. apply Nat.eqb_neq in En. exfalso. apply En.
      apply (n_unique_one _ Hne). intros [[i1 a] o1] [[i2 b] o2] I1 I2. cbn [fst snd].
      destruct (Hh' _ _ _ I1) as [ex1 [E1 C1]]. destruct (Hh' _ _ _ I2) as [ex2 [E2 C2]].
      exact (Hall _ _ _ _ E1 E2 C1 C2).
Qed.

(** X9. Whether the comparator reaches consensus does not depend on the order of
    the executions: any permutation of the list gives the same
    consensus_reached. *)
Theorem compare_consensus_perm : forall loads execs execs',
  Permutation execs execs' ->
  consensus_reached (compare loads execs) = consensus_reached (compare loads execs').
Proof.
  intros loads l l' P. pose proof (Permutation_length P) as L.
  destruct l as [|a [|b rest]].
  - apply Permutation_nil in P. now subst.
  - apply Permutation_length_1_inv in P. now subst.
  - assert (H2 : (2 <= length (a :: b :: rest))%nat) by (simpl; lia).
    assert (H2' : (2 <= length l')%nat) by (rewrite <- L; exact H2).
    apply eq_true_iff_eq. rewrite (compare_consensus_iff _ _ H2), (compare_consensus_iff _ _ H2').
    assert (I : forall x, In x (a :: b :: rest) <-> In x l')
      by (intros x; split; [apply Permutation_in, P|apply Permutation_in, Permutation_sym, P]).
    split; intros [[ex [h [Hin Hc]]] Hall]; (split; [exists ex, h; split; [apply I; exact Hin|exact Hc]|]);
      intros ex1 ex2 h1 h2 E1 E2; apply Hall; apply I; assumption.
Qed.

Lemma compare_consensus_perm_witness :
  consensus_reached (compare no_loads [result_ex 1; result_ex 2; result_ex 1]) =
  consensus_reached (compare no_loads [result_ex 1; result_ex 1; result_ex 2]).
Proof. apply compare_consensus_perm. apply perm_skip, perm_swap. Defined.

(** ** Decision records *)

Lemma dict_get_set_same : forall d k v def, dict_get (dict_set d k v) k def = v.
Proof.
  induction d as [|[k' v'] d IH]; intros k v def; cbn [dict_set dict_get].
  - destruct (list_eq_dec Z.eq_dec k k); congruence.
  - destruct (list_eq_dec Z.eq_dec k k') as [->|Hne]; cbn [dict_get].
    + destruct (list_eq_dec Z.eq_dec k' k'); congruence.
    + destruct (list_eq_dec Z.eq_dec k k'); [congruence|]. apply IH.
Qed.

Lemma dict_get_set_other : forall d k k2 v def, k2 <> k ->
  dict_get (dict_set d k v) k2 def = dict_get d k2 def.
Proof.
  induction d as [|[k' v'] d IH]; intros k k2 v def Hne; cbn [dict_set dict_get].
  - destruct (list_eq_dec Z.eq_dec k2 k); congruence.
  - destruct (list_eq_dec Z.eq_dec k k') as [->|Hk]; cbn [dict_get];
      destruct (list_eq_dec Z.eq_dec k2 k'); try congruence. now apply IH.
Qed.

Lemma cch_shape : forall loads data h,
  compute_canonical_hash loads data = Ok h -> length h = 64%nat /\ Forall hex_lower h.
Proof.
  intros loads data h H. unfold compute_canonical_hash in H.
  destruct (canonicalize_json loads data) as [c|e]; [|discriminate].
  exact (sha256_hex_shape _ _ H).
Qed.

Lemma make_fields : forall loads now dt p rat a md r,
  DecisionRecord.make loads now dt p rat a md = Ok r ->
  DecisionRecord.decision_type r = dt /\ DecisionRecord.proposal r = p /\
  DecisionRecord.rationale r = rat /\ DecisionRecord.author r = a /\
  DecisionRecord.metadata r = match md with Some ((_ :: _) as m) => m | _ => [] end /\
  DecisionRecord.timestamp r = now ++ lit "Z" /\
  DecisionRecord.generate_id loads dt p (now ++ lit "Z") a = Ok (DecisionRecord.record_id r).
Proof.
  intros loads now dt p rat a md r H. unfold DecisionRecord.make in H. cbv zeta in H.
  destruct (DecisionRecord.generate_id loads dt p (now ++ lit "Z") a) as [rid|e] eqn:E;
    cbn [bind] in H; [|discriminate].
  apply Ok_inj in H. subst r. cbn. repeat split; assumption.
Qed.

(** X16. The record_id of a DecisionRecord is 16 lowercase hex characters (a
    prefix of a canonical hash). Its timestamp is the utcnow isoformat followed
    by Z. *)
Theorem record_id_shape : forall loads now dt p rat a md r,
  DecisionRecord.make loads now dt p rat a md = Ok r ->
  length (DecisionRecord.record_id r) = 16%nat /\ Forall hex_lower (DecisionRecord.record_id r) /\
  DecisionRecord.timestamp r = now ++ lit "Z".
Proof.
  intros loads now dt p rat a md r H.
  destruct (make_fields _ _ _ _ _ _ _ _ H) as [_ [_ [_ [_ [_ [Ht Hg]]]]]].
  unfold DecisionRecord.generate_id in Hg.
  destruct (compute_canonical_hash _ _) as [h|e] eqn:Eh; cbn [bind] in Hg; [|discriminate].
  apply Ok_inj in Hg. rewrite <- Hg. destruct (cch_shape _ _ _ Eh) as [L F].
  split; [rewrite length_firstn, L; reflexivity|]. split; [|exact Ht].
  rewrite <- (firstn_skipn 16 h) in F. apply Forall_app in F. tauto.
Qed.

Lemma record_id_shape_witness :
  exists r, DecisionRecord.make no_loads (lit "2026-01-01T00:00:00") (lit "acceptance")
              (PDict []) (lit "ok") (lit "alice") None = Ok r /\
            length (DecisionRecord.record_id r) = 16%nat.
Proof.
  destruct (DecisionRecord.make no_loads (lit "2026-01-01T00:00:00") (lit "acceptance")
              (PDict []) (lit "ok") (lit "alice") None) as [r|e] eqn:E.
  - exists r. split; [reflexivity|]. exact (proj1 (record_id_shape _ _ _ _ _ _ _ _ E)).
  - vm_compute in E. discriminate.
Defined.

(** X17. compose_canon_proposal appends exactly its new record to
    pending_reviews. get_pending_reviews then returns the old list plus that
    record's to_dict, and its decision_type is canon_proposal. *)
Theorem compose_canon_proposal_pending : forall loads now st canon change rat a r st',
  DecisionComposer.compose_canon_proposal loads now st canon change rat a = Ok (r, st') ->
  DecisionComposer.pending_reviews st' = DecisionComposer.pending_reviews st ++ [r] /\
  DecisionComposer.get_pending_reviews st' =
    DecisionComposer.get_pending_reviews st ++ [DecisionRecord.to_dict r] /\
  DecisionRecord.decision_type r = lit "canon_proposal".
Proof.
  intros loads now st canon change rat a r st' H.
  unfold DecisionComposer.compose_canon_proposal in H.
  destruct (compute_canonical_hash loads canon) as [h|e]; cbn [bind] in H; [|discriminate].
  cbv zeta in H.
  destruct (DecisionRecord.make _ _ _ _ _ _ _) as [r0|e] eqn:E; cbn [bind] in H; [|discriminate].
  apply Ok_inj in H. injection H as <- <-.
  destruct (make_fields _ _ _ _ _ _ _ _ E) as [Hd [_ [_ [_ [Hm _]]]]].
  split; [reflexivity|]. split; [|exact Hd].
  unfold DecisionComposer.get_pending_reviews. cbn [DecisionComposer.pending_reviews].
  rewrite filter_app, map_app. f_equal.
  unfold DecisionComposer.is_pending. cbn [filter]. rewrite Hm. reflexivity.
Qed.

Lemma pystr_eqb_false : forall a b, pystr_eqb a b = false -> a <> b.
Proof. unfold pystr_eqb. intros a b H. destruct (list_eq_dec Z.eq_dec a b); congruence. Qed.

Lemma update_first_spec : forall rid f rs,
  match DecisionComposer.update_first rid f rs with
  | None => ~ In rid (map DecisionRecord.record_id rs)
  | Some rs' => exists pre r post, rs = pre ++ r :: post /\
                  ~ In rid (map DecisionRecord.record_id pre) /\
                  DecisionRecord.record_id r = rid /\ rs' = pre ++ f r :: post
  end.
Proof.
  intros rid f rs. induction rs as [|r rs IH]; cbn [DecisionComposer.update_first]; [simpl; tauto|].
  destruct (pystr_eqb (DecisionRecord.record_id r) rid) eqn:E.
  - exists [], r, rs. apply pystr_eqb_true in E. repeat split; auto.
  - apply pystr_eqb_false in E.
    destruct (DecisionComposer.update_first rid f rs) as [rs'|]; cbn [option_map].
    + destruct IH as [pre [r' [post [H1 [H2 [H3 H4]]]]]]. exists (r :: pre), r', post.
      subst. repeat split; auto. simpl. intros [X|X]; auto.
    + simpl. intros [X|X]; auto.
Qed.

(** What a review does, for an update that keeps the other fields. *)
Lemma review_spec : forall rid g st,
  let f := fun r => DecisionRecord.set_metadata r (g (DecisionRecord.metadata r)) in
  let '(b, st') := DecisionComposer.review rid f st in
  (b = true <-> In rid (map DecisionRecord.record_id (DecisionComposer.pending_reviews st))) /\
  (b = false -> st' = st) /\
  map DecisionRecord.record_id (DecisionComposer.pending_reviews st') =
    map DecisionRecord.record_id (DecisionComposer.pending_reviews st) /\
  (b = true -> exists pre r post,
     DecisionComposer.pending_reviews st = pre ++ r :: post /\
     ~ In rid (map DecisionRecord.record_id pre) /\ DecisionRecord.record_id r = rid /\
     DecisionComposer.pending_reviews st' =
       pre ++ DecisionRecord.set_metadata r (g (DecisionRecord.metadata r)) :: post).
Proof.
  intros rid g st. cbv zeta. unfold DecisionComposer.review.
  pose proof (update_first_spec rid
    (fun r => DecisionRecord.set_metadata r (g (DecisionRecord.metadata r)))
    (DecisionComposer.pending_reviews st)) as U.
  destruct (DecisionComposer.update_first _ _ _) as [rs'|].
  - destruct U as [pre [r [post [H1 [H2 [H3 H4]]]]]]. cbn [DecisionComposer.pending_reviews].
    split; [split; [intros _|reflexivity]|].
    { rewrite H1, map_app. apply in_or_app. right. left. exact H3. }
    split; [discriminate|]. split.
    + rewrite H4, H1, !map_app. reflexivity.
    + intros _. exists pre, r, post. auto.
  - split; [split; [discriminate|intros X; contradiction]|]. split; [reflexivity|].
    split; [reflexivity|discriminate].
Qed.

Ltac key_neq := let X := fresh in intros X; vm_compute in X; discriminate X.

(** X18. approve_review returns True exactly when some pending record has the
    id, and otherwise leaves the composer unchanged. It updates only the first
    record with the id: status becomes approved, reviewer is set, and the record
    is no longer pending. The list of ids is unchanged, and the record's current
    status is not checked. *)
Theorem approve_review_spec : forall now st rid reviewer,
  let '(b, st') := DecisionComposer.approve_review now st rid reviewer in
  (b = true <-> In rid (map DecisionRecord.record_id (DecisionComposer.pending_reviews st))) /\
  (b = false -> st' = st) /\
  map DecisionRecord.record_id (DecisionComposer.pending_reviews st') =
    map DecisionRecord.record_id (DecisionComposer.pending_reviews st) /\
  (b = true -> exists pre r post r',
     DecisionComposer.pending_reviews st = pre ++ r :: post /\
     ~ In rid (map DecisionRecord.record_id pre) /\ DecisionRecord.record_id r = rid /\
     DecisionComposer.pending_reviews st' = pre ++ r' :: post /\
     DecisionRecord.set_metadata r (DecisionRecord.metadata r') = r' /\
     dict_get (DecisionRecord.metadata r') (lit "status") PNone = PStr (lit "approved") /\
     dict_get (DecisionRecord.metadata r') (lit "reviewer") PNone = PStr reviewer /\
     DecisionComposer.is_pending r' = false).
Proof.
  intros now st rid reviewer.
  set (g := fun m => dict_set (dict_set (dict_set m (lit "status") (PStr (lit "approved")))
                       (lit "reviewer") (PStr reviewer)) (lit "review_timestamp") (PStr (now ++ lit "Z"))).
  pose proof (review_spec rid g st) as R. cbv zeta in R.
  change (DecisionComposer.approve_review now st rid reviewer) with
    (DecisionComposer.review rid
       (fun r => DecisionRecord.set_metadata r (g (DecisionRecord.metadata r))) st).
  destruct (DecisionComposer.review _ _ st) as [b st'].
  destruct R as [R1 [R2 [R3 R4]]]. split; [exact R1|]. split; [exact R2|]. split; [exact R3|].
  intros Hb. destruct (R4 Hb) as [pre [r [post [H1 [H2 [H3 H4]]]]]].
  exists pre, r, post, (DecisionRecord.set_metadata r (g (DecisionRecord.metadata r))).
  assert (Hs : dict_get (g (DecisionRecord.metadata r)) (lit "status") PNone = PStr (lit "approved")).
  { unfold g. rewrite dict_get_set_other by key_neq. rewrite dict_get_set_other by key_neq.
    apply dict_get_set_same. }
  repeat split; try assumption; try reflexivity;
    cbn [DecisionRecord.metadata DecisionRecord.set_metadata];
    first [ exact Hs
          | (unfold g; rewrite !dict_get_set_other by key_neq; apply dict_get_set_same)
          | (unfold DecisionComposer.is_pending;
             cbn [DecisionRecord.metadata DecisionRecord.set_metadata];
             rewrite Hs; vm_compute; reflexivity) ].
Qed.

(** X19. reject_review returns True exactly when some pending record has the id,
    and otherwise leaves the composer unchanged. It updates only the first
    record with the id: status becomes rejected, reviewer and rejection_reason
    are set, and the record is no longer pending. The list of ids is unchanged,
    and the record's current status is not checked. *)
Theorem reject_review_spec : forall now st rid reviewer reason,
  let '(b, st') := DecisionComposer.reject_review now st rid reviewer reason in
  (b = true <-> In rid (map DecisionRecord.record_id (DecisionComposer.pending_reviews st))) /\
  (b = false -> st' = st) /\
  map DecisionRecord.record_id (DecisionComposer.pending_reviews st') =
    map DecisionRecord.record_id (DecisionComposer.pending_reviews st) /\
  (b = true -> exists pre r post r',
     DecisionComposer.pending_reviews st = pre ++ r :: post /\
     ~ In rid (map DecisionRecord.record_id pre) /\ DecisionRecord.record_id r = rid /\
     DecisionComposer.pending_reviews st' = pre ++ r' :: post /\
     DecisionRecord.set_metadata r (DecisionRecord.metadata r') = r' /\
     dict_get (DecisionRecord.metadata r') (lit "status") PNone = PStr (lit "rejected") /\
     dict_get (DecisionRecord.metadata r') (lit "reviewer") PNone = PStr reviewer /\
     dict_get (DecisionRecord.metadata r') (lit "rejection_reason") PNone = PStr reason /\
     DecisionComposer.is_pending r' = false).
Proof.
  intros now st rid reviewer reason.
  set (g := fun m => dict_set (dict_set (dict_set (dict_set m (lit "status") (PStr (lit "rejected")))
                       (lit "reviewer") (PStr reviewer)) (lit "rejection_reason") (PStr reason))
                       (lit "review_timestamp") (PStr (now ++ lit "Z"))).
  pose proof (review_spec rid g st) as R. cbv zeta in R.
  change (DecisionComposer.reject_review now st rid reviewer reason) with
    (DecisionComposer.review rid
       (fun r => DecisionRecord.set_metadata r (g (DecisionRecord.metadata r))) st).
  destruct (DecisionComposer.review _ _ st) as [b st'].
  destruct R as [R1 [R2 [R3 R4]]]. split; [exact R1|]. split; [exact R2|]. split; [exact R3|].
  intros Hb. destruct (R4 Hb) as [pre [r [post [H1 [H2 [H3 H4]]]]]].
  exists pre, r, post, (DecisionRecord.set_metadata r (g (DecisionRecord.metadata r))).
  assert (Hs : dict_get (g (DecisionRecord.metadata r)) (lit "status") PNone = PStr (lit "rejected")).
  { unfold g. rewrite !dict_get_set_other by key_neq. apply dict_get_set_same. }
  repeat split; try assumption; try reflexivity;
    cbn [DecisionRecord.metadata DecisionRecord.set_metadata];
    first [ exact Hs
          | (unfold g; rewrite !dict_get_set_other by key_neq; apply dict_get_set_same)
          | (unfold DecisionComposer.is_pending;
             cbn [DecisionRecord.metadata DecisionRecord.set_metadata];
             rewrite Hs; vm_compute; reflexivity) ].
Qed.

(** ** The index of a span error; more on [validate_against_canon] *)

Lemma check_spans_cons : forall text h idx sp rest,
  check_spans text h idx (sp :: rest) =
  match check_spans text h idx [sp] with
  | Some e => Some e
  | None => check_spans text h (idx + 1) rest
  end.
Proof.
  intros. cbn [check_spans].
  repeat match goal with |- context [if ?c then _ else _] => destruct c end; reflexivity.
Qed.

Lemma check_spans_one_idx : forall text h idx sp e,
  check_spans text h idx [sp] = Some e -> span_error_idx e = Some idx.
Proof.
  intros text h idx sp e H. cbn [check_spans] in H.
  repeat match type of H with
  | (if ?c then _ else _) = _ => destruct c; [apply some_inj in H; subst e; reflexivity|]
  end. discriminate.
Qed.

(** X14. A span error from the loop over matched_spans carries the index of the
    first failing span. Every earlier span passes all checks, and the reported
    error is the one that span gives on its own. *)
Theorem check_spans_first_failure : forall text h spans e,
  check_spans text h 0 spans = Some e ->
  exists k sp, span_error_idx e = Some (Z.of_nat k) /\ nth_error spans k = Some sp /\
    check_spans text h 0 (firstn k spans) = None /\
    check_spans text h (Z.of_nat k) [sp] = Some e.
Proof.
  intros text h spans e.
  assert (G : forall idx, check_spans text h idx spans = Some e ->
    exists k sp, span_error_idx e = Some (idx + Z.of_nat k) /\ nth_error spans k = Some sp /\
      check_spans text h idx (firstn k spans) = None /\
      check_spans text h (idx + Z.of_nat k) [sp] = Some e).
  { induction spans as [|sp rest IH]; intros idx H; [discriminate|].
    rewrite check_spans_cons in H.
    destruct (check_spans text h idx [sp]) as [e'|] eqn:E1.
    - apply some_inj in H. subst e'. exists 0%nat, sp. rewrite Z.add_0_r.
      split; [exact (check_spans_one_idx _ _ _ _ _ E1)|]. split; [reflexivity|].
      split; [reflexivity|exact E1].
    - destruct (IH _ H) as [k [sp' [H1 [H2 [H3 H4]]]]]. exists (S k), sp'.
      replace (idx + Z.of_nat (S k)) with (idx + 1 + Z.of_nat k) by lia.
      split; [exact H1|]. split; [exact H2|]. split; [|exact H4].
      cbn [firstn]. rewrite check_spans_cons, E1. exact H3. }
  intros H. destruct (G 0 H) as [k [sp [H1 [H2 [H3 H4]]]]]. exists k, sp. exact (conj H1 (conj H2 (conj H3 H4))).
Qed.


Lemma check_spans_first_failure_witness :
  check_spans doc_text doc_drhash 0 [span_dict "test" 10 14; span_dict "test" 0 4] =
    Some (span_text_mismatch 1 (lit "test") (lit "This")) /\
  exists k sp, span_error_idx (span_text_mismatch 1 (lit "test") (lit "This")) = Some (Z.of_nat k) /\
    nth_error [span_dict "test" 10 14; span_dict "test" 0 4] k = Some sp.
Proof.
  assert (H : check_spans doc_text doc_drhash 0 [span_dict "test" 10 14; span_dict "test" 0 4] =
              Some (span_text_mismatch 1 (lit "test") (lit "This"))) by (vm_compute; reflexivity).
  split; [exact H|]. destruct (check_spans_first_failure _ _ _ _ H) as [k [sp [H1 [H2 _]]]].
  exists k, sp. split; assumption.
Defined.

(** X7. When result has no 'outputs' key and canon_spec has no 'expected_output'
    key, both default to {}. validate_against_canon then returns (True, 'Output
    matches canonical specification'). *)
Theorem validate_against_canon_missing_keys : forall loads result canon_spec,
  ~ In (lit "outputs") (map fst result) -> ~ In (lit "expected_output") (map fst canon_spec) ->
  validate_against_canon loads result canon_spec =
    (true, lit "Output matches canonical specification").
Proof.
  intros loads result spec H1 H2.
  assert (A : canonicalize_json loads (dict_get result (lit "outputs") (PDict [])) = Ok (lit "{}"))
    by (rewrite dict_get_missing by exact H1; reflexivity).
  assert (B : canonicalize_json loads (dict_get spec (lit "expected_output") (PDict [])) = Ok (lit "{}"))
    by (rewrite dict_get_missing by exact H2; reflexivity).
  apply (proj1 (validate_against_canon_same loads result spec (lit "{}") A B)).
  cbn. repeat constructor; unfold surrogate; lia.
Qed.

Lemma validate_against_canon_missing_keys_witness :
  validate_against_canon no_loads [(lit "job_id", PInt 7)] [] =
    (true, lit "Output matches canonical specification").
Proof.
  apply validate_against_canon_missing_keys.
  - simpl. intros [X|[]]. vm_compute in X. discriminate X.
  - simpl. tauto.
Defined.

Lemma validate_against_canon_same_text_witness :
  validate_against_canon no_loads [(lit "outputs", PDict [(lit "b", PInt 2); (lit "a", PInt 1)])]
    [(lit "expected_output", PDict [(lit "a", PInt 1); (lit "b", PInt 2)])] =
    (true, lit "Output matches canonical specification").
Proof.
  apply (proj1 (validate_against_canon_same_text no_loads
                 [(lit "outputs", PDict [(lit "b", PInt 2); (lit "a", PInt 1)])]
                 [(lit "expected_output", PDict [(lit "a", PInt 1); (lit "b", PInt 2)])]
                 (jlit "{'a':1,'b':2}")
                 ltac:(vm_compute; reflexivity) ltac:(vm_compute; reflexivity))).
  rewrite Forall_forall. intros x Hx. vm_compute in Hx. unfold surrogate.
  repeat (destruct Hx as [<-|Hx]; [lia|]). destruct Hx.
Defined.

Lemma canonicalize_json_idempotent_witness :
  canonicalize_value (PTuple [PDict [(lit "z", PInt 1); (lit "a", PNone)]]) =
    Ok (PList [PDict [(lit "a", PNone); (lit "z", PInt 1)]]) /\
  canonicalize_json no_loads (PList [PDict [(lit "a", PNone); (lit "z", PInt 1)]]) =
    canonicalize_json no_loads (PTuple [PDict [(lit "z", PInt 1); (lit "a", PNone)]]).
Proof.
  assert (H : canonicalize_value (PTuple [PDict [(lit "z", PInt 1); (lit "a", PNone)]]) =
              Ok (PList [PDict [(lit "a", PNone); (lit "z", PInt 1)]])) by (vm_compute; reflexivity).
  split; [exact H|]. apply (proj2 (canonicalize_json_idempotent no_loads _ _ H)).
  intros s X. discriminate X.
Defined.

Lemma compute_canonical_hash_shape_witness :
  exists h, compute_canonical_hash no_loads (PList [PInt 1]) = Ok h /\ length h = 64%nat.
Proof.
  destruct (compute_canonical_hash no_loads (PList [PInt 1])) as [h|e] eqn:E.
  - exists h. split; [reflexivity|]. exact (proj1 (compute_canonical_hash_shape _ _ _ E)).
  - vm_compute in E. discriminate.
Defined.

Lemma compose_canon_proposal_pending_witness :
  exists r st', DecisionComposer.compose_canon_proposal no_loads (lit "2026-01-01T00:00:00")
      (DecisionComposer.init None) (PDict []) (PDict [(lit "k", PInt 1)]) (lit "why") (lit "bob")
      = Ok (r, st') /\ DecisionComposer.pending_reviews st' = [r].
Proof.
  destruct (DecisionComposer.compose_canon_proposal no_loads (lit "2026-01-01T00:00:00")
      (DecisionComposer.init None) (PDict []) (PDict [(lit "k", PInt 1)]) (lit "why") (lit "bob"))
    as [[r st']|e] eqn:E.
  - exists r, st'. split; [reflexivity|]. exact (proj1 (compose_canon_proposal_pending _ _ _ _ _ _ _ _ _ E)).
  - vm_compute in E. discriminate.
Defined.

(** X15. A drhash_mismatch result reports as expected the SHA-256 hex of the
    canonical text (64 lowercase hex characters) and as got the record's
    internal.drhash, which differs from it. It occurs only after the model and
    provenance checks pass. *)
Theorem validate_drhash_mismatch : forall pf pi d text expected got,
  validate_tampa_output pf pi d text = Ok (Invalid (drhash_mismatch expected got)) ->
  sha256_hex text = Ok expected /\ got <> expected /\
  length expected = 64%nat /\ Forall hex_lower expected /\
  exists o, tampa_output_model pf pi d = Some o /\ check_provenance o = None /\
            Internal.drhash (TampaOutput.internal o) = got.
Proof.
  intros pf pi d text expected got H.
  destruct (tampa_output_model pf pi d) as [o|] eqn:Hm.
  2:{ rewrite (validate_gate_fail _ _ _ _ Hm) in H. apply Invalid_inj in H. discriminate H. }
  rewrite (validate_gate_ok _ _ _ _ _ Hm) in H.
  destruct (check_provenance o) as [e|] eqn:Hc.
  { apply Invalid_inj in H. subst e. destruct (check_provenance_codes _ _ Hc) as [[a [b X]]|[f [v X]]];
      discriminate X. }
  destruct (sha256_hex text) as [h|x] eqn:Hh; cbn [bind] in H; [|discriminate].
  destruct (pystr_eqb (Internal.drhash (TampaOutput.internal o)) h) eqn:Hd; cbn [negb] in H.
  - destruct (check_spans _ _ _ _) as [e|] eqn:Hs; [|discriminate].
    apply Invalid_inj in H. subst e. pose proof (check_spans_span_error _ _ _ _ _ Hs) as X.
    discriminate X.
  - apply Invalid_inj in H. injection H as <- <-.
    destruct (sha256_hex_shape _ _ Hh) as [L F].
    split; [reflexivity|]. split; [exact (pystr_eqb_false _ _ Hd)|].
    split; [exact L|]. split; [exact F|]. exists o. auto.
Qed.


Lemma validate_drhash_mismatch_witness :
  validate_tampa_output no_parse_float no_parse_int (tampa_ex 0.9 0.9 0.8 []) other_text =
    Ok (Invalid (drhash_mismatch other_drhash doc_drhash)) /\
  doc_drhash <> other_drhash.
Proof.
  assert (H : validate_tampa_output no_parse_float no_parse_int (tampa_ex 0.9 0.9 0.8 []) other_text =
              Ok (Invalid (drhash_mismatch other_drhash doc_drhash))) by (vm_compute; reflexivity).
  split; [exact H|]. exact (proj1 (proj2 (validate_drhash_mismatch _ _ _ _ _ _ H))).
Defined.

